(** * Threaded comments: the tree assembler, the visibility filter and the
      write path of [threadedcomments/models.py], embedded in Rocq.

    The file follows the Python module top to bottom: the markup constants,
    [dfs], the two managers ([ThreadedCommentManager] and
    [PublicThreadedCommentManager]) with [get_tree] and the per-object
    accessors, and the [save] method shared by the two model classes.

    The object-relational layer underneath belongs to the host framework.
    The parts of it that the module calls are written out in [Module ORM]
    (query sets) and [Module Model] (the clock, [Model.save],
    [QuerySet.get]) with the behaviour the framework documents.

    Python objects are mutable: [dfs] writes a [depth] attribute on the
    objects it is handed and returns those same objects.  Objects are
    therefore modelled with an address, and the attribute lives in a store
    keyed by address that is threaded through the traversal.

    The parent of a comment is a foreign key.  The tree assembler is first
    embedded over the stored keys, which is all it compares; a second
    embedding of the same lines fetches the parent row on every read of
    [.parent] and fails as the framework does when the key has no row.
    The two agree on every table whose parent keys all have rows. *)

From Stdlib Require Import ZArith Lia.
From stdpp Require Import base option list gmap strings.

Open Scope Z_scope.

(** ** Markup constants *)

Definition MARKDOWN : Z := 1.
Definition TEXTILE : Z := 2.
Definition REST : Z := 3.
Definition PLAINTEXT : Z := 5.

Definition MARKUP_CHOICES : list (Z * string) :=
  [ (MARKDOWN, "markdown"%string);
    (TEXTILE, "textile"%string);
    (REST, "restructuredtext"%string);
    (PLAINTEXT, "plaintext"%string) ].

(** ** Data model *)

(** The entity a comment hangs on: the content type of the content object
    and its primary key ([getattr(content_object, 'pk', ...)]). *)
Record ContentObject := mkContentObject {
  co_content_type : Z;
  co_pk : Z
}.

(** One row of a comment table.  [ThreadedComment] and
    [FreeThreadedComment] have the same columns except for the author:
    a [user] foreign key in the first, [name]/[website]/[email] in the
    second.  The record is therefore parametric in the author columns.
    [parent] is the self-referential foreign key: the related object is
    represented by its primary key, which is all the module reads of it
    ([subnode.parent.id]); [None] is SQL NULL.  [markup] and
    [date_approved] are nullable, time stamps are instants on the integer
    line. *)
Record Comment (A : Type) := mkComment {
  id : Z;
  content_type : Z;
  object_id : Z;
  parent : option Z;
  author : A;
  date_submitted : Z;
  date_modified : Z;
  date_approved : option Z;
  comment : string;
  markup : option Z;
  is_public : bool;
  is_approved : bool;
  ip_address : option string
}.

Arguments mkComment {A}.
Arguments id {A}.
Arguments content_type {A}.
Arguments object_id {A}.
Arguments parent {A}.
Arguments author {A}.
Arguments date_submitted {A}.
Arguments date_modified {A}.
Arguments date_approved {A}.
Arguments comment {A}.
Arguments markup {A}.
Arguments is_public {A}.
Arguments is_approved {A}.
Arguments ip_address {A}.

(** The two model classes. *)
Definition ThreadedComment := Comment Z.
Definition FreeThreadedComment := Comment (string * string * string).

(** A model instance in memory: the Python object built from a fetched row.
    Two instances are the same object exactly when their addresses agree.
    The [depth] attribute that [dfs] annotates is not a column; it lives in
    a separate attribute store keyed by the object's address, so that a
    second write to the same object overwrites the first. *)
Record Instance (A : Type) := mkInstance {
  addr : nat;
  row : Comment A
}.

Arguments mkInstance {A}.
Arguments addr {A}.
Arguments row {A}.

(** The [depth] attributes set so far. *)
Abbreviation DepthAttrs := (gmap nat nat).

(** The part of the Python heap the module touches: the next free object
    address and the [depth] attributes. *)
Record Heap := mkHeap {
  next_addr : nat;
  depths : DepthAttrs
}.

(** ** The object-relational layer, as far as the module uses it *)

Module ORM.

(** A table is the list of its rows in the order in which the model's
  query set iterates them (the model's [Meta.ordering] decides that
  order; the tree assembler only relies on it being fixed). *)
Abbreviation Table A := (list (Comment A)).

Section QuerySets.
Context {A : Type}.

(** [Manager.get_query_set()]: every row. *)
Definition all (t : Table A) : list (Comment A) := t.

(** [QuerySet.filter(content_type=..., object_id=...)]. *)
Definition for_object (o : ContentObject) (c : Comment A) : bool :=
  (content_type c =? co_content_type o) && (object_id c =? co_pk o).

(** [list(query_set)]: one fresh object per row, at consecutive addresses
    from [base] on. *)
Definition instantiate (base : nat) (rows : list (Comment A))
    : list (Instance A) :=
  imap (fun i r => mkInstance (base + i) r) rows.

End QuerySets.

End ORM.

(** ** [dfs] *)

(** What a traversal hands back: the list it built and the attribute store
    after its writes; [None] when the call nesting exceeds the fuel. *)
Abbreviation Outcome A := (option (list (Instance A) * DepthAttrs)).

Section Dfs.
Context {A : Type}.

(** [subnode.parent and subnode.parent.id == node.id]: a model instance is
    always truthy, so the first conjunct only tests for NULL.  The parent
    is read here as the stored key; [is_child_of_deref] further down
    fetches it, as the attribute read does, and can fail. *)
Definition is_child_of (subnode node : Instance A) : bool :=
  match parent (row subnode) with
  | Some p => p =? id (row node)
  | None => false
  end.

(** The loop shape shared by [dfs] and [get_tree]:
<<
    for x in xs:
        if cond(x):
            to_return.extend(body(x))
>>
    [body] may write [depth] attributes, so the store is threaded through
    the iterations in order. *)
Fixpoint for_extend (cond : Instance A → bool)
    (body : Instance A → DepthAttrs → Outcome A)
    (xs : list (Instance A)) (to_return : list (Instance A))
    (h : DepthAttrs) : Outcome A :=
  match xs with
  | [] => Some (to_return, h)
  | x :: xs' =>
      if cond x then
        match body x h with
        | Some (sub, h') => for_extend cond body xs' (to_return ++ sub) h'
        | None => None
        end
      else for_extend cond body xs' to_return h
  end.

(** [dfs(node, all_nodes, depth)].  Python recursion is not structural, so
    the embedding carries a fuel that bounds the nesting of calls. *)
Fixpoint dfs (fuel : nat) (node : Instance A) (all_nodes : list (Instance A))
    (depth : nat) (h : DepthAttrs) : Outcome A :=
  match fuel with
  | O => None
  | S fuel' =>
      for_extend (fun subnode => is_child_of subnode node)
                 (fun subnode h' => dfs fuel' subnode all_nodes (S depth) h')
                 all_nodes [node] (<[addr node := depth]> h)
  end.

End Dfs.

(** ** The managers *)

(** [objects = ThreadedCommentManager()] and
    [public = PublicThreadedCommentManager()]; the second inherits every
    method of the first and overrides [get_query_set]. *)
Inductive Manager := ThreadedCommentManager | PublicThreadedCommentManager.

Section Managers.
Context {A : Type}.

(** [Q(is_public = True) | Q(is_approved = True)]. *)
Definition visible (c : Comment A) : bool := is_public c || is_approved c.

(** [get_query_set]: inherited from the framework's manager by
    [ThreadedCommentManager] (every row), overridden by
    [PublicThreadedCommentManager], which filters the framework manager's
    query set by the visibility test. *)
Definition get_query_set (m : Manager) (t : ORM.Table A) : list (Comment A) :=
  match m with
  | ThreadedCommentManager => ORM.all t
  | PublicThreadedCommentManager => filter (fun c => visible c = true) (ORM.all t)
  end.

(** The rows [get_tree] works on: the manager's rows attached to
    [content_object]. *)
Definition rows_for (m : Manager) (t : ORM.Table A)
    (content_object : ContentObject) : list (Comment A) :=
  filter (fun c => ORM.for_object content_object c = true) (get_query_set m t).

(** [not child.parent], on the stored key; [not_parent_deref] further
    down fetches the parent. *)
Definition not_parent (child : Instance A) : bool :=
  match parent (row child) with
  | Some _ => false
  | None => true
  end.

(** [get_tree(content_object)], run in heap [w]: the rows are fetched into
    fresh objects, then every parentless one is traversed. *)
Definition get_tree (fuel : nat) (m : Manager) (t : ORM.Table A)
    (content_object : ContentObject) (w : Heap)
    : option (list (Instance A) * Heap) :=
  let rows := rows_for m t content_object in
  let children := ORM.instantiate (next_addr w) rows in
  match for_extend not_parent (fun child h => dfs fuel child children 0%nat h)
                   children [] (depths w) with
  | Some (to_return, h) =>
      Some (to_return, mkHeap (next_addr w + length rows) h)
  | None => None
  end.

(** What a caller reads off a list of comment objects: each comment with
    the [depth] attribute its object carries in heap [w]. *)
Definition annotated (l : list (Instance A)) (w : Heap)
    : list (Comment A * option nat) :=
  (fun o => (row o, depths w !! addr o)) <$> l.

End Managers.

(** ** Ancestry within a set of rows *)

Section Ancestry.
Context {A : Type}.
Implicit Types (rows : list (Comment A)) (c q r : Comment A).

(** The row a parent reference leads to, when it is among [rows]. *)
Definition parent_row rows c : option (Comment A) :=
  match parent c with
  | Some p => snd <$> list_find (fun x => id x = p) rows
  | None => None
  end.

(** The [n]-th ancestor of [c] within [rows]. *)
Fixpoint ancestor rows (n : nat) c : option (Comment A) :=
  match n with
  | O => Some c
  | S n' =>
      match parent_row rows c with
      | Some q => ancestor rows n' q
      | None => None
      end
  end.

(** The ancestors of [c] within [rows], nearest first, following at most
    [fuel] parent links. *)
Fixpoint ancestors (fuel : nat) rows c : list (Comment A) :=
  match fuel with
  | O => []
  | S fuel' =>
      match parent_row rows c with
      | Some q => q :: ancestors fuel' rows q
      | None => []
      end
  end.

(** The number of ancestors of [c] within [rows]. *)
Definition count_ancestors rows c : nat :=
  length (ancestors (length rows) rows c).

(** No comment of [rows] is its own ancestor. *)
Definition acyclic rows : Prop :=
  ∀ c n, c ∈ rows → ancestor rows (S n) c ≠ Some c.

(** Every parent reference of [rows] leads to a row of [rows]. *)
Definition parents_present rows : Prop :=
  ∀ c p, c ∈ rows → parent c = Some p → ∃ q, q ∈ rows ∧ id q = p.

(** Executable check of acyclicity: from every row, following parent
    links leaves the set or reaches a root within [length rows] steps. *)
Fixpoint grounded (fuel : nat) rows c : bool :=
  match parent_row rows c with
  | None => true
  | Some q =>
      match fuel with
      | O => false
      | S fuel' => grounded fuel' rows q
      end
  end.

Definition acyclicb rows : bool :=
  forallb (grounded (length rows) rows) rows.

End Ancestry.

(** ** Keyword arguments, [save] and the store accessors *)

(** A keyword-argument dictionary over the model's columns: [None] when the key
    is absent, [Some v] when it is bound to [v] (so [Some None] binds a
    nullable column to Python's [None]). *)
Record Kwargs (A : Type) := mkKwargs {
  kw_id : option Z;
  kw_content_type : option Z;
  kw_object_id : option Z;
  kw_parent : option (option Z);
  kw_author : option A;
  kw_date_submitted : option Z;
  kw_date_modified : option Z;
  kw_date_approved : option (option Z);
  kw_comment : option string;
  kw_markup : option (option Z);
  kw_is_public : option bool;
  kw_is_approved : option bool;
  kw_ip_address : option (option string)
}.

Arguments mkKwargs {A}.
Arguments kw_id {A}.
Arguments kw_content_type {A}.
Arguments kw_object_id {A}.
Arguments kw_parent {A}.
Arguments kw_author {A}.
Arguments kw_date_submitted {A}.
Arguments kw_date_modified {A}.
Arguments kw_date_approved {A}.
Arguments kw_comment {A}.
Arguments kw_markup {A}.
Arguments kw_is_public {A}.
Arguments kw_is_approved {A}.
Arguments kw_ip_address {A}.

(** What distinguishes the two model classes: their author columns can be
    compared, and have a default or not ([user] is a required foreign key,
    [name], [website] and [email] default to the empty string). *)
Class AuthorColumns (A : Type) := {
  author_eq_dec :: EqDecision A;
  author_default : option A
}.

#[export] Instance ThreadedComment_columns : AuthorColumns Z :=
  {| author_default := None |}.

#[export] Instance FreeThreadedComment_columns
    : AuthorColumns (string * string * string) :=
  {| author_default := Some (EmptyString, EmptyString, EmptyString) |}.

(** The world a write runs in: the clock, as the readings still to come,
    and the comment table. *)
Record World (A : Type) := mkWorld {
  clock : nat → Z;
  table : list (Comment A)
}.

Arguments mkWorld {A}.
Arguments clock {A}.
Arguments table {A}.

(** Outcome of a single-result fetch. *)
Inductive Fetched (A : Type) :=
  | Found (c : Comment A)
  | DoesNotExist
  | MultipleObjectsReturned.

Arguments Found {A}.
Arguments DoesNotExist {A}.
Arguments MultipleObjectsReturned {A}.

Module Model.

Section Persistence.
Context {A : Type}.

(** [datetime.now()]: the next reading of the clock. *)
Definition datetime_now (w : World A) : Z * World A :=
  (clock w O, mkWorld (fun n => clock w (S n)) (table w)).

(** [Model.save()], the framework's write reached through [super]: UPDATE
    the row with this primary key when there is one, INSERT the row
    otherwise. *)
Fixpoint write_row (c : Comment A) (t : list (Comment A)) : list (Comment A) :=
  match t with
  | [] => [c]
  | x :: t' => if id x =? id c then c :: t' else x :: write_row c t'
  end.

Definition save (self : Comment A) (w : World A) : World A :=
  mkWorld (clock w) (write_row self (table w)).

(** The primary key an INSERT assigns: one more than the largest in use. *)
Definition next_id (t : list (Comment A)) : Z :=
  1 + foldr (fun c acc => Z.max (id c) acc) 0 t.

(** Modelled from the spec: [QuerySet.get], which [get_for_object]
    delegates to, is the framework's and not part of the module.  The spec
    has it fetch exactly one matching record, fail with NotFound if zero
    match and with MultipleResults if more than one; the framework's names
    for the two failures are kept. *)
Definition get (selected : list (Comment A)) : Fetched A :=
  match selected with
  | [] => DoesNotExist
  | [c] => Found c
  | _ :: _ :: _ => MultipleObjectsReturned
  end.

End Persistence.

End Model.

Section WritePath.
Context {A : Type}.

Definition set_markup (m : option Z) (c : Comment A) : Comment A :=
  mkComment (id c) (content_type c) (object_id c) (parent c) (author c)
    (date_submitted c) (date_modified c) (date_approved c) (comment c)
    m (is_public c) (is_approved c) (ip_address c).

Definition set_date_modified (d : Z) (c : Comment A) : Comment A :=
  mkComment (id c) (content_type c) (object_id c) (parent c) (author c)
    (date_submitted c) d (date_approved c) (comment c)
    (markup c) (is_public c) (is_approved c) (ip_address c).

Definition set_date_approved (d : option Z) (c : Comment A) : Comment A :=
  mkComment (id c) (content_type c) (object_id c) (parent c) (author c)
    (date_submitted c) (date_modified c) d (comment c)
    (markup c) (is_public c) (is_approved c) (ip_address c).

Definition set_is_approved (b : bool) (c : Comment A) : Comment A :=
  mkComment (id c) (content_type c) (object_id c) (parent c) (author c)
    (date_submitted c) (date_modified c) (date_approved c) (comment c)
    (markup c) (is_public c) b (ip_address c).

Definition set_is_public (b : bool) (c : Comment A) : Comment A :=
  mkComment (id c) (content_type c) (object_id c) (parent c) (author c)
    (date_submitted c) (date_modified c) (date_approved c) (comment c)
    (markup c) b (is_approved c) (ip_address c).

Definition set_comment (s : string) (c : Comment A) : Comment A :=
  mkComment (id c) (content_type c) (object_id c) (parent c) (author c)
    (date_submitted c) (date_modified c) (date_approved c) s
    (markup c) (is_public c) (is_approved c) (ip_address c).

(** [not self.markup]: [None] and [0] are the falsy values of a nullable
    integer column. *)
Definition markup_falsy (m : option Z) : bool :=
  match m with
  | None => true
  | Some z => z =? 0
  end.

(** [not self.date_approved]: a [datetime] is always truthy. *)
Definition date_falsy (d : option Z) : bool :=
  match d with
  | None => true
  | Some _ => false
  end.

(** [ThreadedComment.save] and [FreeThreadedComment.save] (the two bodies
    are the same text).  Returns the object after the method's writes to
    it, and the world after the row has been written. *)
Definition save (self : Comment A) (w : World A) : Comment A * World A :=
  let self1 :=
    if markup_falsy (markup self) then set_markup (Some PLAINTEXT) self
    else self in
  let '(now, w1) := Model.datetime_now w in
  let self2 := set_date_modified now self1 in
  if date_falsy (date_approved self2) && is_approved self2 then
    let '(now', w2) := Model.datetime_now w1 in
    let self3 := set_date_approved (Some now') self2 in
    (self3, Model.save self3 w2)
  else (self2, Model.save self2 w1).

(** What client code does to a comment object between and around writes:
    assign to its moderation flags, markup or text, or save it. *)
Inductive Action :=
  | Assign_is_approved (b : bool)
  | Assign_is_public (b : bool)
  | Assign_markup (m : option Z)
  | Assign_comment (s : string)
  | Save.

Definition act (a : Action) (st : Comment A * World A) : Comment A * World A :=
  match a with
  | Assign_is_approved b => (set_is_approved b st.1, st.2)
  | Assign_is_public b => (set_is_public b st.1, st.2)
  | Assign_markup m => (set_markup m st.1, st.2)
  | Assign_comment s => (set_comment s st.1, st.2)
  | Save => save st.1 st.2
  end.

Definition run (acts : list Action) (st : Comment A * World A)
    : Comment A * World A :=
  foldl (fun s a => act a s) st acts.

(** The row stored under a primary key. *)
Definition stored (k : Z) (w : World A) : option (Comment A) :=
  snd <$> list_find (fun x => id x = k) (table w).

End WritePath.

Section Accessors.
Context {A : Type} `{AuthorColumns A}.

(** [_generate_object_kwarg_dict]: the two owner keys are (re)bound. *)
Definition _generate_object_kwarg_dict (content_object : ContentObject)
    (kwargs : Kwargs A) : Kwargs A :=
  mkKwargs (kw_id kwargs)
    (Some (co_content_type content_object)) (Some (co_pk content_object))
    (kw_parent kwargs) (kw_author kwargs) (kw_date_submitted kwargs)
    (kw_date_modified kwargs) (kw_date_approved kwargs) (kw_comment kwargs)
    (kw_markup kwargs) (kw_is_public kwargs) (kw_is_approved kwargs)
    (kw_ip_address kwargs).

(** One exact-match lookup: absent keys do not restrict. *)
Definition agrees {B : Type} `{EqDecision B} (k : option B) (v : B) : bool :=
  match k with
  | Some x => bool_decide (x = v)
  | None => true
  end.

(** Filtering a query set by a keyword dictionary, as a test on one row. *)
Definition matches (kwargs : Kwargs A) (c : Comment A) : bool :=
  agrees (kw_id kwargs) (id c)
  && agrees (kw_content_type kwargs) (content_type c)
  && agrees (kw_object_id kwargs) (object_id c)
  && agrees (kw_parent kwargs) (parent c)
  && agrees (kw_author kwargs) (author c)
  && agrees (kw_date_submitted kwargs) (date_submitted c)
  && agrees (kw_date_modified kwargs) (date_modified c)
  && agrees (kw_date_approved kwargs) (date_approved c)
  && agrees (kw_comment kwargs) (comment c)
  && agrees (kw_markup kwargs) (markup c)
  && agrees (kw_is_public kwargs) (is_public c)
  && agrees (kw_is_approved kwargs) (is_approved c)
  && agrees (kw_ip_address kwargs) (ip_address c).

(** [get_for_object]: the manager's [get] goes through the manager's own
    query set. *)
Definition get_for_object (m : Manager) (t : ORM.Table A)
    (content_object : ContentObject) (kwargs : Kwargs A) : Fetched A :=
  let kwargs' := _generate_object_kwarg_dict content_object kwargs in
  Model.get (filter (fun c => matches kwargs' c = true) (get_query_set m t)).

(** Constructing a model object from keywords: columns without a key take the default declared
    on the field, callable defaults ([datetime.now]) being called in
    field order.  [None] when a required column has neither key nor
    default.  The primary key is the one the INSERT will assign. *)
Definition construct (kwargs : Kwargs A) (w : World A)
    : option (Comment A * World A) :=
  match kw_content_type kwargs, kw_object_id kwargs,
        (match kw_author kwargs with Some a => Some a | None => author_default end) with
  | Some ct, Some oid, Some a =>
      let '(submitted, w1) :=
        match kw_date_submitted kwargs with
        | Some d => (d, w)
        | None => Model.datetime_now w
        end in
      let '(modified, w2) :=
        match kw_date_modified kwargs with
        | Some d => (d, w1)
        | None => Model.datetime_now w1
        end in
      Some (mkComment
              (default (Model.next_id (table w)) (kw_id kwargs))
              ct oid
              (default None (kw_parent kwargs))
              a submitted modified
              (default None (kw_date_approved kwargs))
              (default EmptyString (kw_comment kwargs))
              (default (Some PLAINTEXT) (kw_markup kwargs))
              (default true (kw_is_public kwargs))
              (default false (kw_is_approved kwargs))
              (default None (kw_ip_address kwargs)),
            w2)
  | _, _, _ => None
  end.

(** [Manager.create]: construct the object, then [save] it. *)
Definition create (kwargs : Kwargs A) (w : World A)
    : option (Comment A * World A) :=
  match construct kwargs w with
  | Some (obj, w') => Some (save obj w')
  | None => None
  end.

Definition create_for_object (content_object : ContentObject)
    (kwargs : Kwargs A) (w : World A) : option (Comment A * World A) :=
  create (_generate_object_kwarg_dict content_object kwargs) w.

End Accessors.

(** ** The writes of a traversal

    Proof devices: a traversal is summarised by the sequence of
    [(object, depth)] writes it performs, in order.  [dfs_trace] and
    [collect] recompute that sequence without a store; the lemmas below
    show that [dfs] and [for_extend] return exactly the objects of the
    sequence and leave the store with exactly its writes applied. *)

Abbreviation Trace A := (list (Instance A * nat)).

Section Traces.
Context {A : Type}.

Definition writes (tr : Trace A) (h : DepthAttrs) : DepthAttrs :=
  foldl (fun h' p => <[addr p.1 := p.2]> h') h tr.

Fixpoint collect (cond : Instance A → bool) (body : Instance A → option (Trace A))
    (xs : list (Instance A)) : option (Trace A) :=
  match xs with
  | [] => Some []
  | x :: xs' =>
      if cond x then
        match body x with
        | Some tr => (tr ++.) <$> collect cond body xs'
        | None => None
        end
      else collect cond body xs'
  end.

Fixpoint dfs_trace (fuel : nat) (node : Instance A)
    (all_nodes : list (Instance A)) (depth : nat) : option (Trace A) :=
  match fuel with
  | O => None
  | S fuel' =>
      ((node, depth) ::.) <$>
        collect (fun s => is_child_of s node)
                (fun s => dfs_trace fuel' s all_nodes (S depth)) all_nodes
  end.

Definition tree_trace (fuel : nat) (children : list (Instance A)) : option (Trace A) :=
  collect not_parent (fun c => dfs_trace fuel c children 0%nat) children.

Definition result_of (to_return : list (Instance A)) (h : DepthAttrs)
    (tr : Trace A) : list (Instance A) * DepthAttrs :=
  (to_return ++ tr.*1, writes tr h).

(** Why an object may be written at depth [d] once [seen] has been:
    it has no parent and [d] is 0, or its parent was written one level
    up. *)
Definition justified (seen : Trace A) (c : Instance A) (d : nat) : Prop :=
  (not_parent c = true ∧ d = 0%nat) ∨
  ∃ q k, (q, k) ∈ seen ∧ d = S k ∧ is_child_of c q = true.

(** Every write of [tr] is justified by the writes before it. *)
Definition linked (seen tr : Trace A) : Prop :=
  ∀ pre c k post, tr = pre ++ (c, k) :: post → justified (seen ++ pre) c k.

(** The writes of [tr], redirected to the objects that [g] names. *)
Definition relabel (g : Instance A → Instance A) (tr : Trace A) : Trace A :=
  (fun p => (g p.1, p.2)) <$> tr.

(** The same row in an object [delta] addresses further on. *)
Definition shift (delta : nat) (x : Instance A) : Instance A :=
  mkInstance (addr x + delta) (row x).

(** The comment's own owner. *)
Definition owner_of (c : Comment A) : ContentObject :=
  mkContentObject (content_type c) (object_id c).

End Traces.

(** ** Display and snapshot methods *)

Section Display.
Context {A : Type}.

(** [__unicode__] (the same text in both model classes): the comment,
    cut after 50 characters and then marked with three dots. *)
Definition __unicode__ (self : Comment A) : string :=
  if (50 <? String.length (comment self))%nat then
    String.append (String.substring 0 50 (comment self)) "..."
  else String.substring 0 50 (comment self).

(** [get_content_object]: the generic foreign key, resolved. *)
Definition get_content_object (self : Comment A) : ContentObject :=
  mkContentObject (content_type self) (object_id self).

End Display.

(** The values a snapshot dictionary holds: Python's [None], strings,
    booleans, instants, and the related objects (the content object, the
    parent comment and the user, the latter two by primary key). *)
Inductive Value :=
  | VNone
  | VStr (s : string)
  | VBool (b : bool)
  | VDate (d : Z)
  | VObject (o : ContentObject)
  | VComment (k : Z)
  | VUser (k : Z).

Section Snapshot.
Context {A : Type}.

(** The loop of [get_base_data] over the markup choices, leaving at the
    first choice whose number is the comment's markup:
<<
      for markup_choice in MARKUP_CHOICES:
          if self.markup == markup_choice[0]:
              markup = markup_choice[1]
              break
>> *)
Fixpoint markup_choice_name (m : option Z) (choices : list (Z * string))
    (markup : string) : string :=
  match choices with
  | [] => markup
  | markup_choice :: rest =>
      if bool_decide (m = Some markup_choice.1) then markup_choice.2
      else markup_choice_name m rest markup
  end.

Definition optional {B : Type} (inject : B → Value) (x : option B) : Value :=
  match x with
  | Some b => inject b
  | None => VNone
  end.

(** The three assignments under [if show_dates]. *)
Definition with_dates (show_dates : bool) (self : Comment A)
    (to_return : gmap string Value) : gmap string Value :=
  if show_dates then
    <["date_approved"%string := optional VDate (date_approved self)]>
      (<["date_modified"%string := VDate (date_modified self)]>
         (<["date_submitted"%string := VDate (date_submitted self)]> to_return))
  else to_return.

End Snapshot.

(** [ThreadedComment.get_base_data]. *)
Definition ThreadedComment_get_base_data (self : ThreadedComment)
    (show_dates : bool) : gmap string Value :=
  let markup := markup_choice_name (markup self) MARKUP_CHOICES "plaintext" in
  let to_return : gmap string Value :=
    <["markup"%string := VStr markup]>
    (<["ip_address"%string := optional VStr (ip_address self)]>
    (<["is_approved"%string := VBool (is_approved self)]>
    (<["is_public"%string := VBool (is_public self)]>
    (<["comment"%string := VStr (comment self)]>
    (<["user"%string := VUser (author self)]>
    (<["parent"%string := optional VComment (parent self)]>
    (<["content_object"%string := VObject (get_content_object self)]> ∅))))))) in
  with_dates show_dates self to_return.

(** [FreeThreadedComment.get_base_data]. *)
Definition FreeThreadedComment_get_base_data (self : FreeThreadedComment)
    (show_dates : bool) : gmap string Value :=
  let markup := markup_choice_name (markup self) MARKUP_CHOICES "plaintext" in
  let to_return : gmap string Value :=
    <["markup"%string := VStr markup]>
    (<["ip_address"%string := optional VStr (ip_address self)]>
    (<["is_approved"%string := VBool (is_approved self)]>
    (<["is_public"%string := VBool (is_public self)]>
    (<["comment"%string := VStr (comment self)]>
    (<["email"%string := VStr (author self).2]>
    (<["website"%string := VStr (author self).1.2]>
    (<["name"%string := VStr (author self).1.1]>
    (<["parent"%string := optional VComment (parent self)]>
    (<["content_object"%string := VObject (get_content_object self)]> ∅))))))))) in
  with_dates show_dates self to_return.

(** ** [get_or_create_for_object] *)

(** What a get-or-create hands back: the object, whether it was created,
    and the world after the call; or one of the two failures. *)
Inductive GotOrCreated (A : Type) :=
  | Got (obj : Comment A) (created : bool) (w : World A)
  | GotAmbiguous
  | GotRejected.

Arguments Got {A}.
Arguments GotAmbiguous {A}.
Arguments GotRejected {A}.

Section GetOrCreate.
Context {A : Type} `{AuthorColumns A}.

(** The framework's [Manager.get_or_create]: the manager's [get] with the
    keywords; when that finds nothing, [create] with the same keywords;
    when it finds several rows, their failure is passed on.  A row that a
    database constraint refuses is [GotRejected]. *)
Definition get_or_create (m : Manager) (kwargs : Kwargs A) (w : World A)
    : GotOrCreated A :=
  match Model.get (filter (fun c => matches kwargs c = true)
                          (get_query_set m (table w))) with
  | Found c => Got c false w
  | DoesNotExist =>
      match create kwargs w with
      | Some (obj, w') => Got obj true w'
      | None => GotRejected
      end
  | MultipleObjectsReturned => GotAmbiguous
  end.

Definition get_or_create_for_object (m : Manager)
    (content_object : ContentObject) (kwargs : Kwargs A) (w : World A)
    : GotOrCreated A :=
  get_or_create m (_generate_object_kwarg_dict content_object kwargs) w.

(** Keywords that select by primary key alone. *)
Definition by_id (k : Z) : Kwargs A :=
  mkKwargs (Some k) None None None None None None None None None None None None.

End GetOrCreate.

(** Depths that never rise by more than one from an entry to the next. *)
Definition climbs_gently (ds : list nat) : Prop :=
  ∀ i a b, ds !! i = Some a → ds !! S i = Some b → (b ≤ S a)%nat.

(** The writes of [tr], each [k] levels deeper. *)
Definition deepen {A : Type} (k : nat) (tr : Trace A) : Trace A :=
  (fun p => (p.1, (p.2 + k)%nat)) <$> tr.

(** What [save] establishes of a row: a markup that is set, and an
    approval date whenever the row is approved. *)
Definition settled {A : Type} (c : Comment A) : Prop :=
  markup_falsy (markup c) = false ∧
  (is_approved c = true → is_Some (date_approved c)).

(** A caller's keywords with the two owner keys bound by the caller. *)
Definition with_owner_keys {A : Type} (ct oid : option Z) (kwargs : Kwargs A)
    : Kwargs A :=
  mkKwargs (kw_id kwargs) ct oid
    (kw_parent kwargs) (kw_author kwargs) (kw_date_submitted kwargs)
    (kw_date_modified kwargs) (kw_date_approved kwargs) (kw_comment kwargs)
    (kw_markup kwargs) (kw_is_public kwargs) (kw_is_approved kwargs)
    (kw_ip_address kwargs).

(** Keywords whose values [save] does not rewrite on the way to the
    table: no falsy markup, no modification date, and no unset approval
    date together with the approved flag. *)
Definition survive_save {A : Type} (kwargs : Kwargs A) : Prop :=
  (∀ mk, kw_markup kwargs = Some mk → markup_falsy mk = false) ∧
  kw_date_modified kwargs = None ∧
  (kw_date_approved kwargs = Some None → kw_is_approved kwargs ≠ Some true).

(** ** The parent reference, dereferenced

    [child.parent] and [subnode.parent] are attribute reads on a foreign
    key.  The framework answers a NULL key with [None]; for any other key
    it fetches the row with that primary key through the model's default
    manager, and that fetch raises [DoesNotExist] when there is no such
    row.  [is_child_of] and [not_parent] above read the stored key only;
    the definitions of this part follow the same source lines and keep the
    fetch and its failure.  The two readings give the same result whenever
    every key that is read has a row.  Which of the two managers of a model
    class the framework takes for its default is the framework's decision,
    so the manager is a parameter [dm] here. *)

(** How a call ends: with a result, with the [DoesNotExist] of a failed
    fetch, or with the call nesting beyond the fuel. *)
Inductive Ran (R : Type) :=
  | Returned (r : R)
  | RaisedDoesNotExist
  | OutOfFuel.

Arguments Returned {R}.
Arguments RaisedDoesNotExist {R}.
Arguments OutOfFuel {R}.

Definition ran_bind {R S : Type} (x : Ran R) (f : R → Ran S) : Ran S :=
  match x with
  | Returned r => f r
  | RaisedDoesNotExist => RaisedDoesNotExist
  | OutOfFuel => OutOfFuel
  end.

(** An outcome of the key-reading functions, seen as such an ending. *)
Definition ran_of_outcome {R : Type} (x : option R) : Ran R :=
  match x with
  | Some r => Returned r
  | None => OutOfFuel
  end.

Section Dereference.
Context {A : Type}.
Variable dm : Manager.
Variable t : ORM.Table A.

(** [c.parent]. *)
Definition related (c : Comment A) : Ran (option (Comment A)) :=
  match parent c with
  | None => Returned None
  | Some k =>
      match list_find (fun q => id q = k) (get_query_set dm t) with
      | Some (_, q) => Returned (Some q)
      | None => RaisedDoesNotExist
      end
  end.

(** [subnode.parent and subnode.parent.id == node.id]. *)
Definition is_child_of_deref (subnode node : Instance A) : Ran bool :=
  ran_bind (related (row subnode)) (fun p =>
    match p with
    | Some q => Returned (id q =? id (row node))
    | None => Returned false
    end).

(** [not child.parent]. *)
Definition not_parent_deref (child : Instance A) : Ran bool :=
  ran_bind (related (row child)) (fun p =>
    match p with
    | Some _ => Returned false
    | None => Returned true
    end).

(** The loop of [for_extend], with a test that may raise. *)
Fixpoint for_extend_deref (cond : Instance A → Ran bool)
    (body : Instance A → DepthAttrs → Ran (list (Instance A) * DepthAttrs))
    (xs : list (Instance A)) (to_return : list (Instance A))
    (h : DepthAttrs) : Ran (list (Instance A) * DepthAttrs) :=
  match xs with
  | [] => Returned (to_return, h)
  | x :: xs' =>
      ran_bind (cond x) (fun yes =>
        if yes then
          ran_bind (body x h) (fun r =>
            for_extend_deref cond body xs' (to_return ++ r.1) r.2)
        else for_extend_deref cond body xs' to_return h)
  end.

(** [dfs(node, all_nodes, depth)]. *)
Fixpoint dfs_deref (fuel : nat) (node : Instance A)
    (all_nodes : list (Instance A)) (depth : nat) (h : DepthAttrs)
    : Ran (list (Instance A) * DepthAttrs) :=
  match fuel with
  | O => OutOfFuel
  | S fuel' =>
      for_extend_deref (fun subnode => is_child_of_deref subnode node)
        (fun subnode h' => dfs_deref fuel' subnode all_nodes (S depth) h')
        all_nodes [node] (<[addr node := depth]> h)
  end.

(** [get_tree(content_object)] of manager [m], run in heap [w]. *)
Definition get_tree_deref (fuel : nat) (m : Manager)
    (content_object : ContentObject) (w : Heap)
    : Ran (list (Instance A) * Heap) :=
  let rows := rows_for m t content_object in
  let children := ORM.instantiate (next_addr w) rows in
  ran_bind
    (for_extend_deref not_parent_deref
       (fun child h => dfs_deref fuel child children 0%nat h)
       children [] (depths w))
    (fun r => Returned (r.1, mkHeap (next_addr w + length rows) r.2)).

(** The parent key of [c], if any, has a row that the default manager
    yields. *)
Definition resolves (c : Comment A) : Prop :=
  match parent c with
  | Some k => k ∈ id <$> get_query_set dm t
  | None => True
  end.

#[global] Instance resolves_dec c : Decision (resolves c).
Proof. unfold resolves. destruct (parent c); apply _. Defined.

End Dereference.

(** ** What the single-result fetch is asked for *)

(** Modelled from the spec: a record matches [get_for_owner(owner,
    fields...)] when it is attached to the owner and carries, in every
    field the caller names, the value the caller gives.  The two owner
    columns are the owner's whatever the caller passes for them. *)
Definition asked_for {A : Type} (o : ContentObject) (kwargs : Kwargs A)
    (c : Comment A) : Prop :=
  content_type c = co_content_type o ∧
  object_id c = co_pk o ∧
  (∀ v, kw_id kwargs = Some v → id c = v) ∧
  (∀ v, kw_parent kwargs = Some v → parent c = v) ∧
  (∀ v, kw_author kwargs = Some v → author c = v) ∧
  (∀ v, kw_date_submitted kwargs = Some v → date_submitted c = v) ∧
  (∀ v, kw_date_modified kwargs = Some v → date_modified c = v) ∧
  (∀ v, kw_date_approved kwargs = Some v → date_approved c = v) ∧
  (∀ v, kw_comment kwargs = Some v → comment c = v) ∧
  (∀ v, kw_markup kwargs = Some v → markup c = v) ∧
  (∀ v, kw_is_public kwargs = Some v → is_public c = v) ∧
  (∀ v, kw_is_approved kwargs = Some v → is_approved c = v) ∧
  (∀ v, kw_ip_address kwargs = Some v → ip_address c = v).

(** ** A sample store

    Two content objects of one content type.  The first carries the thread
    A, B (reply to A), C, D (reply to B); the damaged variant of the table
    adds, on the same object, a comment whose parent sits on the other
    object, one whose parent does not exist, and one that is neither public
    nor approved. *)

Module Scenario.

Definition page : ContentObject := mkContentObject 7 42.
Definition other_page : ContentObject := mkContentObject 7 43.

Definition post (k : Z) (o : ContentObject) (p : option Z) (submitted : Z)
    : ThreadedComment :=
  mkComment k (co_content_type o) (co_pk o) p 1%Z submitted submitted None
    "text" (Some PLAINTEXT) true false None.

Definition cA : ThreadedComment := post 1 page None 100.
Definition cB : ThreadedComment := post 2 page (Some 1%Z) 101.
Definition cO : ThreadedComment := post 9 other_page None 102.
Definition cC : ThreadedComment := post 3 page None 103.
Definition cD : ThreadedComment := post 4 page (Some 2%Z) 104.
Definition cX : ThreadedComment := post 5 page (Some 9%Z) 105.
Definition cY : ThreadedComment := post 6 page (Some 77%Z) 106.
Definition cHidden : ThreadedComment :=
  mkComment 8 7 42 None 1%Z 107 107 None "spam" None false false None.

Definition thread : list ThreadedComment := [cA; cB; cO; cC; cD].
Definition damaged : list ThreadedComment := thread ++ [cX; cY; cHidden].

Definition heap0 : Heap := mkHeap 0 ∅.

Definition world0 : World Z :=
  mkWorld (fun n => 1000 + Z.of_nat n) damaged.

Definition no_kwargs : Kwargs Z :=
  mkKwargs None None None None None None None None None None None None None.

Definition approved_draft : ThreadedComment :=
  mkComment 11 7 42 None 1%Z 108 108 None "fine" None true true None.

(** A comment approved at instant 500, and keywords for a new comment
    that name an author and a text but no markup. *)
Definition stamped : ThreadedComment :=
  mkComment 12 7 42 None 1%Z 109 109 (Some 500%Z) "seen" (Some PLAINTEXT)
    true true None.

Definition by_author : Kwargs Z :=
  mkKwargs None None None None (Some 1%Z) None None None (Some "hello"%string)
    None None None None.

(** Two comments that are each other's parent, next to a root. *)
Definition cE : ThreadedComment := post 20 page (Some 21%Z) 110.
Definition cF : ThreadedComment := post 21 page (Some 20%Z) 111.
Definition looped : list ThreadedComment := [cE; cA; cF].

(** What a table cannot hold: a second row under the key of a root, naming
    that key as its parent. *)
Definition cA' : ThreadedComment := post 1 page (Some 1%Z) 112.
Definition twins : list ThreadedComment := [cA; cA'].

End Scenario.

(** ** More sample data *)

Module Gallery.

(** A visible reply to the hidden comment of the damaged table. *)
Definition cReply : ThreadedComment :=
  Scenario.post 30 Scenario.page (Some 8%Z) 120.

Definition hidden_thread : list ThreadedComment := Scenario.damaged ++ [cReply].

(** Replies only. *)
Definition orphans : list ThreadedComment := [Scenario.cX; Scenario.cY].

(** A world whose table holds the intact thread. *)
Definition world1 : World Z :=
  mkWorld (fun n => 2000 + Z.of_nat n) Scenario.thread.

(** Keywords for a reply to comment B. *)
Definition reply_to_B : Kwargs Z :=
  mkKwargs None None None (Some (Some 2%Z)) (Some 1%Z) None None None
    (Some "re"%string) None None None None.

(** Keywords that bind the markup to Python's [None]. *)
Definition unmarked : Kwargs Z :=
  mkKwargs None None None None (Some 1%Z) None None None (Some "hi"%string)
    (Some None) None None None.

(** A comment of sixty characters. *)
Definition wordy : ThreadedComment :=
  mkComment 40 7 42 None 1%Z 130 130 None
    "0123456789012345678901234567890123456789012345678901234567890"
    None true false None.

(** The thread of the first content object, fetched. *)
Definition fetched : list (Instance Z) :=
  ORM.instantiate 0 [Scenario.cA; Scenario.cB; Scenario.cC; Scenario.cD].

End Gallery.

(** ** A reply across content objects *)

Module Strays.

(** The intact thread and, on the same content object, a reply whose
    parent sits on the other content object. *)
Definition crossed : list ThreadedComment := Scenario.thread ++ [Scenario.cX].

(** Keywords that ask for comments without a parent. *)
Definition top_level : Kwargs Z :=
  mkKwargs None None None (Some None) None None None None None None None
    None None.

End Strays.

(** * Properties *)

Close Scope Z_scope.

(** ** Ancestry *)

Section AncestryFacts.
Context {A : Type}.
Implicit Types (rows : list (Comment A)) (c q r : Comment A).

Lemma parent_row_Some rows c q :
  parent_row rows c = Some q → q ∈ rows ∧ parent c = Some (id q).
Proof.
  unfold parent_row. destruct (parent c) as [p|]; [|done].
  destruct (list_find _ rows) as [[i x]|] eqn:E; [|done].
  simpl. intros [= <-]. apply list_find_Some in E as (Hi & Hx & _).
  split; [by eapply list_elem_of_lookup_2 | by rewrite Hx].
Qed.

Lemma same_id_same_row rows c q :
  NoDup (id <$> rows) → c ∈ rows → q ∈ rows → id c = id q → c = q.
Proof.
  intros Hnd (i & Hi)%list_elem_of_lookup (j & Hj)%list_elem_of_lookup Heq.
  assert (i = j) as ->; [|congruence].
  eapply NoDup_lookup; [exact Hnd| |].
  - rewrite list_lookup_fmap, Hi. reflexivity.
  - rewrite list_lookup_fmap, Hj. simpl. by rewrite Heq.
Qed.

Lemma parent_row_intro rows c q :
  NoDup (id <$> rows) → q ∈ rows → parent c = Some (id q) →
  parent_row rows c = Some q.
Proof.
  intros Hnd Hq Hp. unfold parent_row. rewrite Hp.
  destruct (list_find (λ x, id x = id q) rows) as [[i x]|] eqn:E.
  - apply list_find_Some in E as (Hi & Hx & _). simpl. f_equal.
    eapply same_id_same_row; eauto. by eapply list_elem_of_lookup_2.
  - apply list_find_None in E. rewrite Forall_forall in E.
    by destruct (E q Hq).
Qed.

Lemma parent_row_None rows c :
  parent_row rows c = None →
  parent c = None ∨ ∃ p, parent c = Some p ∧ ∀ q, q ∈ rows → id q ≠ p.
Proof.
  unfold parent_row. destruct (parent c) as [p|]; [|by left].
  destruct (list_find _ rows) as [[i x]|] eqn:E; [done|].
  intros _. right. exists p. split; [done|].
  apply list_find_None in E. rewrite Forall_forall in E. exact E.
Qed.

Lemma ancestor_add rows m n c :
  ancestor rows (m + n) c = ancestor rows m c ≫= ancestor rows n.
Proof.
  revert c. induction m as [|m IH]; intros c; simpl; [done|].
  destruct (parent_row rows c); [apply IH | done].
Qed.

Lemma ancestor_elem rows n c q :
  c ∈ rows → ancestor rows n c = Some q → q ∈ rows.
Proof.
  revert c. induction n as [|n IH]; intros c Hc; simpl.
  - by intros [= <-].
  - destruct (parent_row rows c) as [x|] eqn:E; [|done].
    apply parent_row_Some in E as [Hx _]. by apply IH.
Qed.

Lemma parent_None_row rows r : parent r = None → parent_row rows r = None.
Proof. intros Hr. unfold parent_row. by rewrite Hr. Qed.

Lemma ancestor_stop rows n r :
  parent_row rows r = None → ancestor rows (S n) r = None.
Proof. intros Hr. simpl. by rewrite Hr. Qed.

Lemma ancestor_S rows n c q :
  parent_row rows c = Some q → ancestor rows (S n) c = ancestor rows n q.
Proof. intros Hq. simpl. by rewrite Hq. Qed.

(** A parent chain that ends does so after one definite number of
    links. *)
Lemma ended_unique rows c d d' r r' :
  ancestor rows d c = Some r → parent_row rows r = None →
  ancestor rows d' c = Some r' → parent_row rows r' = None → d = d'.
Proof.
  assert (∀ d d' r r', d ≤ d' →
    ancestor rows d c = Some r → parent_row rows r = None →
    ancestor rows d' c = Some r' → d = d') as Hle.
  { clear. intros d d' r r' Hle Hd Hr Hd'.
    replace d' with (d + (d' - d)) in Hd' by lia.
    rewrite ancestor_add, Hd in Hd'. simpl in Hd'.
    destruct (d' - d) as [|k] eqn:E; [lia|].
    by rewrite ancestor_stop in Hd'. }
  intros Hd Hr Hd' Hr'. destruct (decide (d ≤ d')).
  - eapply Hle; eauto.
  - symmetry. eapply Hle; eauto. lia.
Qed.

Lemma rooted_unique rows c d d' r r' :
  ancestor rows d c = Some r → parent r = None →
  ancestor rows d' c = Some r' → parent r' = None → d = d'.
Proof.
  intros Hd Hr Hd' Hr'.
  eapply ended_unique; eauto using parent_None_row.
Qed.

(** A comment on a cycle has no end to its parent chain. *)
Lemma cycle_not_ended rows c r m d :
  ancestor rows (S m) c = Some c →
  ancestor rows d c = Some r → parent_row rows r = None → False.
Proof.
  intros Hcycle Hd Hr.
  assert (ancestor rows (S m + d) c = Some r) as Hlong.
  { by rewrite ancestor_add, Hcycle. }
  pose proof (ended_unique _ _ _ _ _ _ Hlong Hr Hd Hr). lia.
Qed.

Lemma ancestors_lookup rows fuel c i y :
  ancestors fuel rows c !! i = Some y → ancestor rows (S i) c = Some y.
Proof.
  revert c i. induction fuel as [|f IH]; intros c i; simpl; [done|].
  destruct (parent_row rows c) as [q|] eqn:E; [|done].
  destruct i as [|i]; simpl.
  - by intros [= <-].
  - intros Hy. apply IH in Hy. simpl in Hy. exact Hy.
Qed.

Lemma ancestors_length rows fuel d c r :
  ancestor rows d c = Some r → parent_row rows r = None → d ≤ fuel →
  length (ancestors fuel rows c) = d.
Proof.
  revert d c. induction fuel as [|f IH]; intros d c Hd Hr Hle.
  - assert (d = 0) as -> by lia. done.
  - destruct d as [|d]; simpl in *.
    + injection Hd as ->. by rewrite Hr.
    + destruct (parent_row rows c) as [q|]; [|done].
      simpl. f_equal. apply IH; [done|done|lia].
Qed.

(** A parent chain none of whose members lies on a cycle repeats no id. *)
Lemma chain_NoDup rows d c z :
  NoDup (id <$> rows) → c ∈ rows →
  (∀ j y m, ancestor rows j c = Some y → ancestor rows (S m) y ≠ Some y) →
  ancestor rows d c = Some z →
  NoDup (id <$> (c :: ancestors d rows c)) ∧ length (ancestors d rows c) = d.
Proof.
  intros Hnd. revert c. induction d as [|d IH]; intros c Hc Hfree Hd.
  - simpl. split; [|done]. apply NoDup_singleton.
  - pose proof Hd as Hd0. simpl in Hd.
    destruct (parent_row rows c) as [q|] eqn:E; [|done].
    pose proof E as [Hq Hpq]%parent_row_Some.
    destruct (IH q Hq) as [IHnd IHlen]; [|done|].
    { intros j y m Hy. apply (Hfree (S j)). by rewrite (ancestor_S _ _ _ q). }
    cbn [ancestors]. rewrite E. split; [|simpl; by rewrite IHlen].
    rewrite fmap_cons. apply NoDup_cons. split; [|exact IHnd].
    intros (y & Hy & Hin)%list_elem_of_fmap.
    assert (∃ k, ancestor rows (S k) c = Some y) as [k Hk].
    { apply list_elem_of_lookup in Hin as [i Hi]. destruct i as [|i]; simpl in Hi.
      - injection Hi as <-. exists 0. by rewrite (ancestor_S _ _ _ q).
      - apply ancestors_lookup in Hi. exists (S i).
        by rewrite (ancestor_S _ _ _ q). }
    assert (y ∈ rows) as Hyr by (eapply ancestor_elem; [exact Hc | exact Hk]).
    assert (c = y) as <- by (by apply (same_id_same_row rows)).
    by apply (Hfree 0 c k).
Qed.

Lemma chain_bound rows d c z :
  NoDup (id <$> rows) → c ∈ rows →
  (∀ j y m, ancestor rows j c = Some y → ancestor rows (S m) y ≠ Some y) →
  ancestor rows d c = Some z → d < length rows.
Proof.
  intros Hnd Hc Hfree Hd.
  destruct (chain_NoDup rows d c z Hnd Hc Hfree Hd) as [Hchain Hlen].
  assert (id <$> (c :: ancestors d rows c) ⊆+ id <$> rows) as Hsub.
  { apply NoDup_submseteq; [exact Hchain|].
    intros z' (y & -> & Hy)%list_elem_of_fmap. apply list_elem_of_fmap.
    exists y. split; [done|].
    apply elem_of_cons in Hy as [->|Hy]; [done|].
    apply list_elem_of_lookup in Hy as [i Hi]. apply ancestors_lookup in Hi.
    eapply ancestor_elem; eauto. }
  apply submseteq_length in Hsub. rewrite !length_fmap in Hsub.
  simpl in Hsub. lia.
Qed.

(** Below a comment whose chain ends, nothing lies on a cycle. *)
Lemma ended_cycle_free rows d c r j y m :
  ancestor rows d c = Some r → parent_row rows r = None →
  ancestor rows j c = Some y → ancestor rows (S m) y ≠ Some y.
Proof.
  intros Hd Hr Hj Hcycle.
  destruct (decide (j ≤ d)) as [Hle|Hgt].
  - replace d with (j + (d - j)) in Hd by lia.
    rewrite ancestor_add, Hj in Hd. simpl in Hd.
    exact (cycle_not_ended rows y r m (d - j) Hcycle Hd Hr).
  - replace j with (d + S (j - d - 1)) in Hj by lia.
    rewrite ancestor_add, Hd in Hj. simpl in Hj. by rewrite Hr in Hj.
Qed.

Lemma rooted_bound rows d c r :
  NoDup (id <$> rows) → c ∈ rows →
  ancestor rows d c = Some r → parent r = None → d < length rows.
Proof.
  intros Hnd Hc Hd Hr. eapply chain_bound; [done..| |exact Hd].
  intros j y m. eapply ended_cycle_free; eauto using parent_None_row.
Qed.

Lemma count_ancestors_rooted rows d c r :
  NoDup (id <$> rows) → c ∈ rows →
  ancestor rows d c = Some r → parent r = None →
  count_ancestors rows c = d.
Proof.
  intros Hnd Hc Hd Hr. unfold count_ancestors.
  eapply ancestors_length; [exact Hd|by apply parent_None_row|].
  pose proof (rooted_bound _ _ _ _ Hnd Hc Hd Hr). lia.
Qed.

(** With every parent present and no cycle, every chain reaches a
    root. *)
Lemma acyclic_rooted rows c :
  NoDup (id <$> rows) → acyclic rows → parents_present rows → c ∈ rows →
  ∃ d r, ancestor rows d c = Some r ∧ parent r = None.
Proof.
  intros Hnd Hacyc Hpres Hc.
  assert (∀ k, (∃ d r, ancestor rows d c = Some r ∧ parent r = None)
               ∨ ∃ y, ancestor rows k c = Some y) as Hwalk.
  { induction k as [|k [Hdone|[y Hy]]]; [right; by exists c | by left |].
    assert (y ∈ rows) as Hyr by (eapply ancestor_elem; eauto).
    destruct (parent y) as [p|] eqn:Ep; [|left; eauto].
    destruct (Hpres y p Hyr Ep) as (q & Hq & Hid).
    right. exists q. replace (S k) with (k + 1) by lia.
    rewrite ancestor_add, Hy. simpl.
    rewrite (parent_row_intro rows y q); [done..|]. by rewrite Hid. }
  destruct (Hwalk (length rows)) as [Hdone|[y Hy]]; [done|].
  exfalso. assert (length rows < length rows); [|lia].
  eapply chain_bound; [done..| |exact Hy].
  intros j z m Hz. apply Hacyc. eapply ancestor_elem; eauto.
Qed.

Lemma grounded_ended rows fuel c :
  grounded fuel rows c = true →
  ∃ d r, ancestor rows d c = Some r ∧ parent_row rows r = None.
Proof.
  revert c. induction fuel as [|f IH]; intros c; simpl.
  - destruct (parent_row rows c) eqn:E; [done|]. intros _. by exists 0, c.
  - destruct (parent_row rows c) as [q|] eqn:E; [|intros _; by exists 0, c].
    intros (d & r & Hd & Hr)%IH. exists (S d), r.
    by rewrite (ancestor_S _ _ _ q).
Qed.

Lemma acyclicb_sound rows : acyclicb rows = true → acyclic rows.
Proof.
  unfold acyclicb. rewrite forallb_forall. intros Hall c n Hc Hcycle.
  destruct (grounded_ended rows (length rows) c) as (d & r & Hd & Hr).
  { apply Hall. by apply list_elem_of_In. }
  by eapply cycle_not_ended.
Qed.

End AncestryFacts.

(** ** Lists *)

Section ListFacts.

Lemma fmap_inj_on {B C} (f : B → C) (l : list B) x y :
  NoDup (f <$> l) → x ∈ l → y ∈ l → f x = f y → x = y.
Proof.
  intros Hnd (i & Hi)%list_elem_of_lookup (j & Hj)%list_elem_of_lookup Heq.
  assert (i = j) as ->; [|congruence].
  eapply NoDup_lookup; [exact Hnd| |].
  - rewrite list_lookup_fmap, Hi. reflexivity.
  - rewrite list_lookup_fmap, Hj. simpl. by rewrite Heq.
Qed.

Lemma NoDup_fmap_within {B C} (f : B → C) (l k : list B) :
  NoDup (f <$> k) → NoDup l → (∀ x, x ∈ l → x ∈ k) → NoDup (f <$> l).
Proof.
  intros Hk Hl Hsub. apply NoDup_fmap_2_strong; [|exact Hl].
  intros x y Hx Hy Hxy. eapply fmap_inj_on; eauto.
Qed.

Lemma Forall2_impl_elem {B C} (R R' : B → C → Prop) l k :
  Forall2 R l k → (∀ x y, x ∈ l → R x y → R' x y) → Forall2 R' l k.
Proof.
  induction 1 as [|x y l k Hxy HF IH]; intros Himp; constructor.
  - apply Himp; [left | done].
  - apply IH. intros x' y' Hx'. apply Himp. by right.
Qed.

Lemma Forall2_elem_r {B C} (R : B → C → Prop) l k y :
  Forall2 R l k → y ∈ k → ∃ x, x ∈ l ∧ R x y.
Proof.
  intros HF (i & Hi)%list_elem_of_lookup.
  destruct (Forall2_lookup_r _ _ _ _ _ HF Hi) as (x & Hx & HR).
  exists x. split; [by eapply list_elem_of_lookup_2 | done].
Qed.

Lemma Forall2_elem_l {B C} (R : B → C → Prop) l k x :
  Forall2 R l k → x ∈ l → ∃ y, y ∈ k ∧ R x y.
Proof.
  intros HF (i & Hi)%list_elem_of_lookup.
  destruct (Forall2_lookup_l _ _ _ _ _ HF Hi) as (y & Hy & HR).
  exists y. split; [by eapply list_elem_of_lookup_2 | done].
Qed.

Lemma elem_of_concat {B} (ls : list (list B)) x :
  x ∈ concat ls ↔ ∃ l, l ∈ ls ∧ x ∈ l.
Proof.
  induction ls as [|l ls IH]; simpl.
  - split; [by intros ?%elem_of_nil | by intros (? & ?%elem_of_nil & _)].
  - rewrite elem_of_app, IH. split.
    + intros [Hx | (l' & Hl' & Hx)]; [exists l | exists l']; split; auto;
        [left | by right].
    + intros (l' & [-> | Hl']%elem_of_cons & Hx); [by left | right; eauto].
Qed.

(** Where an element of a concatenation sits. *)
Lemma concat_split {B} (ls : list (list B)) pre x post :
  concat ls = pre ++ x :: post →
  ∃ ls1 l ls2 p1 p2,
    ls = ls1 ++ l :: ls2 ∧ l = p1 ++ x :: p2 ∧
    pre = concat ls1 ++ p1 ∧ post = p2 ++ concat ls2.
Proof.
  revert pre. induction ls as [|l ls IH]; intros pre; simpl.
  - by destruct pre.
  - intros Heq.
    assert (∀ pre', concat ls = pre' ++ x :: post → pre = l ++ pre' →
      ∃ ls1 l0 ls2 p1 p2,
        l :: ls = ls1 ++ l0 :: ls2 ∧ l0 = p1 ++ x :: p2 ∧
        pre = concat ls1 ++ p1 ∧ post = p2 ++ concat ls2) as Hlater.
    { intros pre' Hc ->.
      destruct (IH _ Hc) as (ls1 & l' & ls2 & p1 & p2 & -> & -> & -> & ->).
      exists (l :: ls1), (p1 ++ x :: p2), ls2, p1, p2.
      simpl. by rewrite app_assoc. }
    apply app_eq_inv in Heq as [(k & Hl & Hk) | (k & Hpre & Hk)].
    + destruct k as [|y k]; simpl in Hk.
      * apply (Hlater []); [done|]. rewrite Hl. by rewrite !app_nil_r.
      * injection Hk as <- ->. exists [], l, ls, pre, k. by rewrite Hl.
    + by apply (Hlater k).
Qed.

(** Lists that belong to different owners are disjoint, so their
    concatenation repeats nothing. *)
Lemma NoDup_concat_owned {X B C} (f : B → C) (Rel : C → X → Prop)
    (xs : list X) (ls : list (list B)) :
  (∀ c x x', x ∈ xs → x' ∈ xs → Rel c x → Rel c x' → x = x') →
  NoDup xs →
  Forall2 (λ x l, NoDup (f <$> l) ∧ ∀ b, b ∈ l → Rel (f b) x) xs ls →
  NoDup (f <$> concat ls).
Proof.
  intros Hfun Hnd HF. induction HF as [|x l xs ls [Hl Hown] HF IH]; simpl.
  - constructor.
  - apply NoDup_cons in Hnd as [Hx Hnd]. rewrite fmap_app.
    apply NoDup_app. split; [exact Hl|]. split.
    + intros c (b & -> & Hb)%list_elem_of_fmap (b' & Heq & Hb')%list_elem_of_fmap.
      apply elem_of_concat in Hb' as (l' & Hl' & Hb').
      destruct (Forall2_elem_r _ _ _ _ HF Hl') as (x' & Hx' & _ & Hown').
      apply Hx. assert (x = x') as ->; [|done].
      apply (Hfun (f b)); [left | by right | by apply Hown |].
      rewrite Heq. by apply Hown'.
    + apply IH; [|exact Hnd].
      intros c y y' Hy Hy'. apply Hfun; by right.
Qed.

End ListFacts.

(** ** Traversals and their writes *)

Section TraceFacts.
Context {A : Type}.
Implicit Types (node s c q : Instance A) (tr : Trace A) (h : DepthAttrs).

Lemma collect_Some (cond : Instance A → bool) body (xs : list (Instance A)) tr :
  collect cond body xs = Some tr ↔
  ∃ trs, Forall2 (λ x t, body x = Some t) (filter (λ x, cond x = true) xs) trs
         ∧ tr = concat trs.
Proof.
  revert tr. induction xs as [|x xs IH]; intros tr; simpl.
  - split.
    + intros [= <-]. exists []. by split; [constructor|].
    + intros (trs & HF & ->). by inversion HF.
  - rewrite filter_cons. destruct (cond x) eqn:E.
    + rewrite decide_True by done. destruct (body x) as [t|] eqn:Eb.
      * rewrite fmap_Some. split.
        -- intros (tr' & (trs & HF & ->)%IH & ->).
           exists (t :: trs). by split; [constructor|].
        -- intros (trs & HF & ->).
           inversion HF as [|? t' ? trs' Hb HF']; subst.
           rewrite Eb in Hb. injection Hb as <-.
           exists (concat trs'). split; [|done]. apply IH. eauto.
      * split; [done|]. intros (trs & HF & _). inversion HF; congruence.
    + rewrite decide_False by congruence. apply IH.
Qed.

Lemma collect_is_Some cond body (xs : list (Instance A)) :
  (∀ x, x ∈ xs → cond x = true → is_Some (body x)) →
  is_Some (collect cond body xs).
Proof.
  induction xs as [|x xs IH]; intros Hb; simpl; [done|].
  assert (is_Some (collect cond body xs)) as [tr Htr].
  { apply IH. intros y Hy. apply Hb. by right. }
  destruct (cond x) eqn:E; [|by rewrite Htr].
  destruct (Hb x) as [t Ht]; [left | done |]. by rewrite Ht, Htr.
Qed.

Lemma collect_mono cond body body' (xs : list (Instance A)) tr :
  (∀ x t, body x = Some t → body' x = Some t) →
  collect cond body xs = Some tr → collect cond body' xs = Some tr.
Proof.
  intros Hb. rewrite !collect_Some. intros (trs & HF & ->).
  exists trs. split; [|done]. eapply Forall2_impl; [exact HF|]. auto.
Qed.

Lemma writes_app tr1 tr2 h : writes (tr1 ++ tr2) h = writes tr2 (writes tr1 h).
Proof. unfold writes. apply foldl_app. Qed.

(** [for_extend] returns the objects of the collected writes after
    [to_return], and applies the writes to the store. *)
Lemma for_extend_collect (cond : Instance A → bool)
    (body : Instance A → DepthAttrs → Outcome A)
    (body' : Instance A → option (Trace A)) xs (acc : list (Instance A)) h :
  (∀ x h', body x h' = result_of [] h' <$> body' x) →
  for_extend cond body xs acc h = result_of acc h <$> collect cond body' xs.
Proof.
  intros Hb. revert acc h. induction xs as [|x xs IH]; intros acc h; simpl.
  - unfold result_of. simpl. by rewrite app_nil_r.
  - destruct (cond x); [|apply IH].
    rewrite Hb. destruct (body' x) as [t|]; simpl; [|done].
    rewrite IH. destruct (collect cond body' xs) as [tr|]; simpl; [|done].
    unfold result_of. simpl. by rewrite fmap_app, writes_app, app_assoc.
Qed.

Lemma dfs_dfs_trace fuel node all depth h :
  dfs fuel node all depth h = result_of [] h <$> dfs_trace fuel node all depth.
Proof.
  revert node depth h. induction fuel as [|f IH]; intros node depth h; simpl.
  - done.
  - erewrite for_extend_collect by (intros; apply IH).
    destruct (collect _ _ all) as [tr|]; simpl; done.
Qed.

Lemma get_tree_tree_trace fuel m (t : ORM.Table A) o w :
  get_tree fuel m t o w =
  (λ tr, (tr.*1, mkHeap (next_addr w + length (rows_for m t o))
                        (writes tr (depths w)))) <$>
    tree_trace fuel (ORM.instantiate (next_addr w) (rows_for m t o)).
Proof.
  unfold get_tree, tree_trace.
  erewrite for_extend_collect by (intros; apply dfs_dfs_trace).
  destruct (collect _ _ _) as [tr|]; simpl; done.
Qed.

(** Reasoning principle for successful traversals: to show [P] of every
    trace, show it of a node's trace given it of its children's. *)
Lemma dfs_trace_explore (P : Instance A → nat → Trace A → Prop) all :
  (∀ node d trs,
     Forall2 (λ s t, s ∈ all ∧ is_child_of s node = true ∧
                     (∃ f, dfs_trace f s all (S d) = Some t) ∧ P s (S d) t)
             (filter (λ s, is_child_of s node = true) all) trs →
     P node d ((node, d) :: concat trs)) →
  ∀ fuel node d tr, dfs_trace fuel node all d = Some tr → P node d tr.
Proof.
  intros Hstep. induction fuel as [|f IH]; intros node d tr; simpl; [done|].
  rewrite fmap_Some. intros (tr' & (trs & HF & ->)%collect_Some & ->).
  apply Hstep. eapply Forall2_impl_elem; [exact HF|].
  intros s t [Hchild Hs]%list_elem_of_filter Ht. simpl in Ht. eauto 10.
Qed.

Lemma dfs_trace_mono f f' node all d tr :
  f ≤ f' → dfs_trace f node all d = Some tr → dfs_trace f' node all d = Some tr.
Proof.
  revert f' node d tr. induction f as [|f IH]; intros f' node d tr Hle; [done|].
  destruct f' as [|f']; [lia|]. simpl. rewrite !fmap_Some.
  intros (tr' & Hc & ->). exists tr'. split; [|done].
  eapply collect_mono; [|exact Hc]. intros s t. apply IH. lia.
Qed.

Lemma tree_trace_mono f f' (children : list (Instance A)) tr :
  f ≤ f' → tree_trace f children = Some tr → tree_trace f' children = Some tr.
Proof.
  intros Hle. apply collect_mono. intros c t. by apply dfs_trace_mono.
Qed.

(** Reading the store after the writes. *)
Lemma writes_lookup_other tr h a :
  a ∉ addr <$> tr.*1 → writes tr h !! a = h !! a.
Proof.
  revert h. induction tr as [|[c k] tr IH]; intros h Ha; simpl; [done|].
  rewrite !fmap_cons in Ha. apply not_elem_of_cons in Ha as [Hne Ha].
  rewrite IH by done. simpl in *. by rewrite lookup_insert_ne.
Qed.

Lemma writes_lookup tr h c k :
  NoDup (addr <$> tr.*1) → (c, k) ∈ tr → writes tr h !! addr c = Some k.
Proof.
  revert h. induction tr as [|[c' k'] tr IH]; intros h Hnd Hin.
  - by apply elem_of_nil in Hin.
  - rewrite !fmap_cons in Hnd. apply NoDup_cons in Hnd as [Hfresh Hnd].
    apply elem_of_cons in Hin as [[= -> ->] | Hin]; simpl.
    + rewrite writes_lookup_other by done. by rewrite lookup_insert_eq.
    + by apply IH.
Qed.

Lemma annotated_writes tr h n :
  NoDup (addr <$> tr.*1) →
  annotated (tr.*1) (mkHeap n (writes tr h)) = (λ p, (row p.1, Some p.2)) <$> tr.
Proof.
  intros Hnd. unfold annotated. rewrite <- list_fmap_compose.
  apply list_eq. intros i. rewrite !list_lookup_fmap.
  destruct (tr !! i) as [[c k]|] eqn:E; simpl; [|done].
  do 2 f_equal. apply writes_lookup; [done|]. by eapply list_elem_of_lookup_2.
Qed.

End TraceFacts.

(** ** The tree assembler over a fixed list of objects *)

Section TreeFacts.
Context {A : Type}.
Variable all : list (Instance A).
Implicit Types (node s c q : Instance A) (tr : Trace A).

Lemma justified_mono (seen seen' : Trace A) c d :
  (∀ p, p ∈ seen → p ∈ seen') → justified seen c d → justified seen' c d.
Proof.
  intros Hsub [?|(q & k & Hq & ? & ?)]; [by left|].
  right. exists q, k. auto.
Qed.

Lemma dfs_trace_linked fuel node d tr seen :
  dfs_trace fuel node all d = Some tr → justified seen node d → linked seen tr.
Proof.
  intros Htr. revert seen. revert Htr.
  apply (dfs_trace_explore
           (λ node d tr, ∀ seen, justified seen node d → linked seen tr) all).
  clear. intros node d trs HF seen J pre c k post Heq.
  destruct pre as [|p pre]; simpl in Heq.
  - injection Heq as <- <-. by rewrite app_nil_r.
  - injection Heq as <- Heq.
    apply concat_split in Heq as (ls1 & t & ls2 & p1 & p2 & -> & -> & -> & ->).
    destruct (Forall2_elem_r _ _ _ (p1 ++ (c, k) :: p2) HF)
      as (s & _ & _ & Hchild & _ & Hs).
    { apply elem_of_app. right. left. }
    specialize (Hs [(node, d)]). eapply justified_mono; [|eapply Hs; [|done]].
    + intros x [Hx|Hx]%elem_of_app.
      * apply list_elem_of_singleton in Hx as ->.
        apply elem_of_app. right. left.
      * apply elem_of_app. right. right. apply elem_of_app. by right.
    + right. exists node, d. split; [left | done].
Qed.

Lemma dfs_trace_closed fuel node d tr :
  dfs_trace fuel node all d = Some tr →
  (node, d) ∈ tr ∧
  ∀ q k c, (q, k) ∈ tr → c ∈ all → is_child_of c q = true → ∃ k', (c, k') ∈ tr.
Proof.
  apply (dfs_trace_explore (λ node d tr, (node, d) ∈ tr ∧
    ∀ q k c, (q, k) ∈ tr → c ∈ all → is_child_of c q = true → ∃ k', (c, k') ∈ tr)).
  clear. intros node d trs HF. split; [left|].
  intros q k c [[= -> ->]|Hq]%elem_of_cons Hc Hchild.
  - destruct (Forall2_elem_l _ _ _ c HF) as (t & Ht & _ & _ & _ & Hhead & _).
    { apply list_elem_of_filter. done. }
    exists (S d). right. apply elem_of_concat. eauto.
  - apply elem_of_concat in Hq as (t & Ht & Hq).
    destruct (Forall2_elem_r _ _ _ t HF Ht) as (s & _ & _ & _ & _ & _ & Hcl).
    destruct (Hcl q k c Hq Hc Hchild) as [k' Hk'].
    exists k'. right. apply elem_of_concat. eauto.
Qed.

Lemma dfs_trace_depth_ge fuel node d tr c k :
  dfs_trace fuel node all d = Some tr → (c, k) ∈ tr → d ≤ k.
Proof.
  intros Htr. revert c k. revert Htr.
  apply (dfs_trace_explore (λ node d tr, ∀ c k, (c, k) ∈ tr → d ≤ k) all).
  clear. intros node d trs HF c k [[= -> ->]|Hq]%elem_of_cons; [done|].
  apply elem_of_concat in Hq as (t & Ht & Hq).
  destruct (Forall2_elem_r _ _ _ t HF Ht) as (s & _ & _ & _ & _ & Hs).
  apply Hs in Hq. lia.
Qed.

Hypothesis Hids : NoDup (id <$> (row <$> all)).
Hypothesis Haddr : NoDup (addr <$> all).

Lemma same_id_same_instance c q :
  c ∈ all → q ∈ all → id (row c) = id (row q) → c = q.
Proof.
  intros Hc Hq Heq. apply (fmap_inj_on (id ∘ row) all); [|done..].
  by rewrite list_fmap_compose.
Qed.

Lemma NoDup_all : NoDup all.
Proof. by eapply NoDup_fmap_1. Qed.

Lemma child_parent_row s node :
  node ∈ all → is_child_of s node = true →
  parent_row (row <$> all) (row s) = Some (row node).
Proof.
  intros Hnode Hchild. unfold is_child_of in Hchild.
  destruct (parent (row s)) as [p|] eqn:E; [|done].
  apply Z.eqb_eq in Hchild as ->.
  apply parent_row_intro; [done| |done]. by apply list_elem_of_fmap_2.
Qed.

Lemma parent_row_child s (y : Comment A) :
  parent_row (row <$> all) (row s) = Some y →
  ∃ node, node ∈ all ∧ row node = y ∧ is_child_of s node = true.
Proof.
  intros [(node & -> & Hnode)%list_elem_of_fmap Hp]%parent_row_Some.
  exists node. split; [done|]. split; [done|].
  unfold is_child_of. rewrite Hp. apply Z.eqb_refl.
Qed.

Lemma cycle_not_rooted (x r : Comment A) m d :
  ancestor (row <$> all) (S m) x = Some x →
  ancestor (row <$> all) d x = Some r → parent r = None → False.
Proof.
  intros Hcycle Hd Hr. eapply cycle_not_ended; eauto using parent_None_row.
Qed.

Lemma ancestor_step s node n :
  node ∈ all → is_child_of s node = true →
  ancestor (row <$> all) (S n) (row s) = ancestor (row <$> all) n (row node).
Proof. intros Hnode Hchild. simpl. by rewrite (child_parent_row s node). Qed.

Lemma ancestor_snoc (x : Comment A) s node m :
  node ∈ all → is_child_of s node = true →
  ancestor (row <$> all) m x = Some (row s) →
  ancestor (row <$> all) (m + 1) x = Some (row node).
Proof.
  intros Hnode Hchild Hm. rewrite ancestor_add, Hm. simpl.
  by rewrite (child_parent_row s node).
Qed.

(** Everything a traversal writes descends from its start node, as many
    links down as the depths differ. *)
Lemma dfs_trace_descends fuel node d tr c k :
  dfs_trace fuel node all d = Some tr → node ∈ all → (c, k) ∈ tr →
  c ∈ all ∧ ∃ m, k = d + m ∧ ancestor (row <$> all) m (row c) = Some (row node).
Proof.
  intros Htr Hnode. revert c k Hnode. revert Htr.
  apply (dfs_trace_explore (λ node d tr, ∀ c k, node ∈ all → (c, k) ∈ tr →
    c ∈ all ∧ ∃ m, k = d + m ∧ ancestor (row <$> all) m (row c) = Some (row node)) all).
  intros node0 d0 trs HF c0 k0 Hnode [[= -> ->]|Hq]%elem_of_cons.
  - split; [done|]. exists 0. split; [lia|done].
  - apply elem_of_concat in Hq as (t & Ht & Hq).
    destruct (Forall2_elem_r _ _ _ t HF Ht) as (s & _ & Hs & Hchild & _ & IH).
    destruct (IH c0 k0 Hs Hq) as (Hc & m & -> & Hm).
    split; [done|]. exists (m + 1). split; [lia|].
    by apply (ancestor_snoc _ s).
Qed.

Lemma siblings_disjoint (x : Comment A) node s s' m m' d r :
  node ∈ all → s ∈ all → s' ∈ all →
  is_child_of s node = true → is_child_of s' node = true →
  ancestor (row <$> all) d (row node) = Some r → parent r = None →
  m ≤ m' →
  ancestor (row <$> all) m x = Some (row s) →
  ancestor (row <$> all) m' x = Some (row s') → s = s'.
Proof.
  intros Hnode Hs Hs' Hch Hch' Hd Hr Hle Hm Hm'.
  replace m' with (m + (m' - m)) in Hm' by lia.
  rewrite ancestor_add, Hm in Hm'. simpl in Hm'.
  destruct (m' - m) as [|j].
  - simpl in Hm'. injection Hm' as Heq.
    apply same_id_same_instance; [done..|]. by rewrite Heq.
  - rewrite (ancestor_step s node) in Hm' by done.
    exfalso. apply (cycle_not_rooted (row node) r j d); [|done..].
    replace (S j) with (j + 1) by lia. by apply (ancestor_snoc _ s').
Qed.

Lemma dfs_trace_NoDup fuel node d tr r :
  dfs_trace fuel node all d = Some tr → node ∈ all →
  ancestor (row <$> all) d (row node) = Some r → parent r = None →
  NoDup tr.*1.
Proof.
  intros Htr. revert r. revert Htr.
  apply (dfs_trace_explore (λ node d tr, ∀ r, node ∈ all →
    ancestor (row <$> all) d (row node) = Some r → parent r = None →
    NoDup tr.*1) all).
  intros node0 d0 trs HF r Hnode Hd Hr.
  rewrite fmap_cons. apply NoDup_cons. split.
  - intros ([c k] & Heq & Hin)%list_elem_of_fmap. simpl in Heq. subst c.
    apply elem_of_concat in Hin as (t & Ht & Hin).
    destruct (Forall2_elem_r _ _ _ t HF Ht) as (s & _ & Hs & Hchild & [f Hf] & _).
    destruct (dfs_trace_descends _ _ _ _ _ _ Hf Hs Hin) as (_ & m & _ & Hm).
    apply (cycle_not_rooted (row node0) r m d0); [|done..].
    replace (S m) with (m + 1) by lia. by apply (ancestor_snoc _ s).
  - apply (NoDup_concat_owned fst
             (λ c s, ∃ m, ancestor (row <$> all) m (row c) = Some (row s))
             (filter (λ s, is_child_of s node0 = true) all)).
    + intros c s s' [Hch Hs]%list_elem_of_filter [Hch' Hs']%list_elem_of_filter
        [m Hm] [m' Hm'].
      destruct (decide (m ≤ m')).
      * eapply (siblings_disjoint (row c) node0 s s' m m'); eauto.
      * symmetry. eapply (siblings_disjoint (row c) node0 s' s m' m); eauto. lia.
    + apply NoDup_filter, NoDup_all.
    + eapply Forall2_impl; [exact HF|].
      intros s t (Hs & Hchild & [f Hf] & IH). split.
      * apply (IH r Hs); [|done]. by rewrite (ancestor_step s node0).
      * intros [c k] Hin. simpl.
        destruct (dfs_trace_descends _ _ _ _ _ _ Hf Hs Hin) as (_ & m & _ & Hm).
        eauto.
Qed.

Lemma dfs_trace_terminates fuel node d r :
  node ∈ all →
  ancestor (row <$> all) d (row node) = Some r → parent r = None →
  length all ≤ fuel + d → is_Some (dfs_trace fuel node all d).
Proof.
  revert node d. induction fuel as [|f IH]; intros node d Hnode Hd Hr Hlen.
  - exfalso. assert (d < length (row <$> all)) as Hlt.
    { eapply rooted_bound; [done| |exact Hd|done]. by apply list_elem_of_fmap_2. }
    rewrite length_fmap in Hlt. lia.
  - simpl. apply fmap_is_Some, collect_is_Some. intros s Hs Hchild.
    apply IH; [done| |done|lia]. by rewrite (ancestor_step s node).
Qed.

End TreeFacts.

(** ** The whole forest *)

Section ForestFacts.
Context {A : Type}.
Variable all : list (Instance A).
Implicit Types (node s c q : Instance A) (tr : Trace A).

Lemma not_parent_None c : not_parent c = true ↔ parent (row c) = None.
Proof. unfold not_parent. destruct (parent (row c)); split; congruence. Qed.

Lemma tree_trace_Some fuel tr :
  tree_trace fuel all = Some tr ↔
  ∃ trs, Forall2 (λ c t, dfs_trace fuel c all 0 = Some t)
                 (filter (λ c, not_parent c = true) all) trs
         ∧ tr = concat trs.
Proof. unfold tree_trace. apply collect_Some. Qed.

Lemma tree_trace_linked fuel tr : tree_trace fuel all = Some tr → linked [] tr.
Proof.
  intros (trs & HF & ->)%tree_trace_Some pre c k post Heq.
  apply concat_split in Heq as (ls1 & t & ls2 & p1 & p2 & -> & -> & -> & ->).
  destruct (Forall2_elem_r _ _ _ (p1 ++ (c, k) :: p2) HF) as (root & Hroot & Ht).
  { apply elem_of_app. right. left. }
  apply list_elem_of_filter in Hroot as [Hroot _].
  eapply justified_mono; [|eapply (dfs_trace_linked all _ _ _ _ [] Ht); [|done]].
  - intros x Hx. simpl in *. apply elem_of_app. by right.
  - by left.
Qed.

Lemma tree_trace_closed fuel tr :
  tree_trace fuel all = Some tr →
  (∀ c, c ∈ all → not_parent c = true → (c, 0) ∈ tr) ∧
  ∀ q k c, (q, k) ∈ tr → c ∈ all → is_child_of c q = true → ∃ k', (c, k') ∈ tr.
Proof.
  intros (trs & HF & ->)%tree_trace_Some. split.
  - intros c Hc Hroot.
    destruct (Forall2_elem_l _ _ _ c HF) as (t & Ht & Hdfs).
    { by apply list_elem_of_filter. }
    apply dfs_trace_closed in Hdfs as [Hhead _].
    apply elem_of_concat. eauto.
  - intros q k c (t & Ht & Hq)%elem_of_concat Hc Hchild.
    destruct (Forall2_elem_r _ _ _ t HF Ht) as (root & _ & Hdfs).
    apply dfs_trace_closed in Hdfs as [_ Hcl].
    destruct (Hcl q k c Hq Hc Hchild) as [k' Hk'].
    exists k'. apply elem_of_concat. eauto.
Qed.

Hypothesis Hids : NoDup (id <$> (row <$> all)).
Hypothesis Haddr : NoDup (addr <$> all).

(** Every write is to an object of the list, at the depth that is its
    distance to a root. *)
Lemma tree_trace_rooted fuel tr c k :
  tree_trace fuel all = Some tr → (c, k) ∈ tr →
  c ∈ all ∧ ∃ root, root ∈ all ∧ parent (row root) = None ∧
                    ancestor (row <$> all) k (row c) = Some (row root).
Proof.
  intros (trs & HF & ->)%tree_trace_Some (t & Ht & Hin)%elem_of_concat.
  destruct (Forall2_elem_r _ _ _ t HF Ht) as (root & Hroot & Hdfs).
  apply list_elem_of_filter in Hroot as [Hnp Hroot].
  destruct (dfs_trace_descends all Hids _ _ _ _ _ _ Hdfs Hroot Hin)
    as (Hc & m & -> & Hm).
  split; [done|]. exists root. by rewrite <- not_parent_None.
Qed.

Lemma tree_trace_NoDup fuel tr : tree_trace fuel all = Some tr → NoDup tr.*1.
Proof.
  intros (trs & HF & ->)%tree_trace_Some.
  apply (NoDup_concat_owned fst
           (λ c root, ∃ m, ancestor (row <$> all) m (row c) = Some (row root))
           (filter (λ c, not_parent c = true) all)).
  - assert (∀ c root root' m m', m ≤ m' →
      root ∈ all → root' ∈ all → not_parent root = true →
      ancestor (row <$> all) m (row c) = Some (row root) →
      ancestor (row <$> all) m' (row c) = Some (row root') → root = root') as Hle.
    { intros c root root' m m' Hle Hr Hr' Hnp Hm Hm'.
      replace m' with (m + (m' - m)) in Hm' by lia.
      rewrite ancestor_add, Hm in Hm'. simpl in Hm'.
      destruct (m' - m) as [|j].
      - simpl in Hm'. injection Hm' as Heq.
        apply (same_id_same_instance all); [done..|]. by rewrite Heq.
      - rewrite ancestor_stop in Hm'; [done|].
        apply parent_None_row. by apply not_parent_None. }
    intros c root root' [Hnp Hr]%list_elem_of_filter [Hnp' Hr']%list_elem_of_filter
      [m Hm] [m' Hm'].
    destruct (decide (m ≤ m')).
    + by apply (Hle c root root' m m').
    + symmetry. apply (Hle c root' root m' m); [lia|done..].
  - apply NoDup_filter. by apply NoDup_all.
  - eapply Forall2_impl_elem; [exact HF|].
    intros root t [Hnp Hroot]%list_elem_of_filter Hdfs. simpl in Hdfs. split.
    + eapply (dfs_trace_NoDup all Hids Haddr); [exact Hdfs|done|done|].
      by apply not_parent_None.
    + intros [c k] Hin. simpl.
      destruct (dfs_trace_descends all Hids _ _ _ _ _ _ Hdfs Hroot Hin)
        as (_ & m & _ & Hm). eauto.
Qed.

Lemma tree_trace_within fuel tr c :
  tree_trace fuel all = Some tr → c ∈ tr.*1 → c ∈ all.
Proof.
  intros Htr ([c' k] & -> & Hin)%list_elem_of_fmap.
  by destruct (tree_trace_rooted _ _ _ _ Htr Hin).
Qed.

Lemma tree_trace_NoDup_addr fuel tr :
  tree_trace fuel all = Some tr → NoDup (addr <$> tr.*1).
Proof.
  intros Htr. eapply NoDup_fmap_within; [exact Haddr| |].
  - by eapply tree_trace_NoDup.
  - intros c. by eapply tree_trace_within.
Qed.

Lemma tree_trace_terminates fuel :
  length all ≤ fuel → is_Some (tree_trace fuel all).
Proof.
  intros Hlen. apply collect_is_Some. intros c Hc Hnp.
  eapply (dfs_trace_terminates all Hids); [done|done| |lia].
  by apply not_parent_None.
Qed.

(** Every object with a chain of parents up to a root is written. *)
Lemma tree_trace_complete fuel tr c d (r : Comment A) :
  tree_trace fuel all = Some tr → c ∈ all →
  ancestor (row <$> all) d (row c) = Some r → parent r = None →
  (c, d) ∈ tr.
Proof.
  intros Htr Hc Hd Hr.
  assert (∀ n x, x ∈ all → ancestor (row <$> all) n (row x) = Some r →
                 ∃ k, (x, k) ∈ tr) as Hex.
  { destruct (tree_trace_closed _ _ Htr) as [Hroots Hcl].
    induction n as [|n IH]; intros x Hx Hn.
    - simpl in Hn. injection Hn as Heq. exists 0. apply Hroots; [done|].
      apply not_parent_None. by rewrite Heq.
    - simpl in Hn. destruct (parent_row _ (row x)) as [y|] eqn:E; [|done].
      destruct (parent_row_child all x y E) as (q & Hq & <- & Hchild).
      destruct (IH q Hq Hn) as [k Hk].
      by apply (Hcl q k x). }
  destruct (Hex d c Hc Hd) as [k Hk].
  destruct (tree_trace_rooted _ _ _ _ Htr Hk) as (_ & root & _ & Hroot & Hk').
  by rewrite (rooted_unique _ _ _ _ _ _ Hd Hr Hk' Hroot).
Qed.

End ForestFacts.

(** ** [get_tree] *)

Section GetTreeFacts.
Context {A : Type}.
Implicit Types (t rows : list (Comment A)) (w : Heap) (o : ContentObject).

Lemma row_instantiate b rows : row <$> ORM.instantiate b rows = rows.
Proof.
  apply list_eq. intros i. unfold ORM.instantiate.
  rewrite list_lookup_fmap, list_lookup_imap. by destruct (rows !! i).
Qed.

Lemma addr_instantiate b rows :
  addr <$> ORM.instantiate b rows = seq b (length rows).
Proof.
  apply list_eq. intros i. unfold ORM.instantiate.
  rewrite list_lookup_fmap, list_lookup_imap.
  destruct (rows !! i) as [r|] eqn:E; simpl.
  - symmetry. apply lookup_seq. split; [done|]. by eapply lookup_lt_Some.
  - symmetry. apply lookup_seq_ge. by apply lookup_ge_None.
Qed.

Lemma length_instantiate b rows : length (ORM.instantiate b rows) = length rows.
Proof. apply length_imap. Qed.

Lemma instantiate_shift b delta rows :
  ORM.instantiate (b + delta) rows = shift delta <$> ORM.instantiate b rows.
Proof.
  apply list_eq. intros i. unfold ORM.instantiate.
  rewrite list_lookup_fmap, !list_lookup_imap.
  destruct (rows !! i); simpl; [|done]. unfold shift. simpl.
  do 2 f_equal. lia.
Qed.

Lemma addr_instantiate_range b rows x :
  x ∈ ORM.instantiate b rows → b ≤ addr x < b + length rows.
Proof.
  intros Hx. apply elem_of_seq. rewrite <- addr_instantiate.
  by apply list_elem_of_fmap_2.
Qed.

Lemma rows_for_sublist m t o : rows_for m t o `sublist_of` t.
Proof.
  unfold rows_for, get_query_set, ORM.all. destruct m.
  - apply sublist_filter.
  - etransitivity; apply sublist_filter.
Qed.

Lemma rows_for_NoDup m t o :
  NoDup (id <$> t) → NoDup (id <$> rows_for m t o).
Proof.
  intros Hnd. eapply sublist_NoDup; [exact Hnd|].
  apply fmap_sublist, rows_for_sublist.
Qed.

Lemma rows_for_elem m t o c :
  c ∈ rows_for m t o → c ∈ t ∧ ORM.for_object o c = true.
Proof.
  unfold rows_for, get_query_set, ORM.all.
  intros [Hfor Hc]%list_elem_of_filter. split; [|done].
  destruct m; [done|]. by apply list_elem_of_filter in Hc as [_ Hc].
Qed.

(** One successful call, summarised by its writes. *)
Lemma get_tree_run fuel m t o w :
  NoDup (id <$> t) → length (rows_for m t o) ≤ fuel →
  ∃ tr,
    tree_trace fuel (ORM.instantiate (next_addr w) (rows_for m t o)) = Some tr ∧
    get_tree fuel m t o w =
      Some (tr.*1, mkHeap (next_addr w + length (rows_for m t o))
                          (writes tr (depths w))) ∧
    annotated (tr.*1) (mkHeap (next_addr w + length (rows_for m t o))
                              (writes tr (depths w)))
      = (λ p, (row p.1, Some p.2)) <$> tr.
Proof.
  intros Hnd Hfuel.
  set (all := ORM.instantiate (next_addr w) (rows_for m t o)).
  assert (NoDup (id <$> (row <$> all))) as Hids.
  { unfold all. rewrite row_instantiate. by apply rows_for_NoDup. }
  assert (NoDup (addr <$> all)) as Haddr.
  { unfold all. rewrite addr_instantiate. apply NoDup_seq. }
  destruct (tree_trace_terminates all Hids fuel) as [tr Htr].
  { unfold all. by rewrite length_instantiate. }
  exists tr. split; [done|]. split.
  - rewrite get_tree_tree_trace. fold all. by rewrite Htr.
  - apply annotated_writes. by eapply tree_trace_NoDup_addr.
Qed.

End GetTreeFacts.

(** ** Object addresses do not matter *)

Section Relabel.
Context {A : Type}.
Variable g : Instance A → Instance A.
Hypothesis g_row : ∀ x, row (g x) = row x.

Lemma is_child_of_relabel s node :
  is_child_of (g s) (g node) = is_child_of s node.
Proof. unfold is_child_of. by rewrite !g_row. Qed.

Lemma not_parent_relabel c : not_parent (g c) = not_parent c.
Proof. unfold not_parent. by rewrite g_row. Qed.

Lemma collect_relabel (cond cond' : Instance A → bool)
    (body body' : Instance A → option (Trace A)) xs :
  (∀ x, cond' (g x) = cond x) →
  (∀ x, body' (g x) = relabel g <$> body x) →
  collect cond' body' (g <$> xs)
  = relabel g <$> collect cond body xs.
Proof.
  intros Hcond Hbody. induction xs as [|x xs IH]; [done|].
  rewrite fmap_cons. simpl. rewrite Hcond, Hbody, IH.
  destruct (cond x); [|done]. destruct (body x) as [tr|]; simpl; [|done].
  destruct (collect cond body xs) as [tr'|]; simpl; [|done].
  unfold relabel. by rewrite fmap_app.
Qed.

Lemma dfs_trace_relabel fuel node all d :
  dfs_trace fuel (g node) (g <$> all) d
  = relabel g <$> dfs_trace fuel node all d.
Proof.
  revert node d. induction fuel as [|f IH]; intros node d; simpl; [done|].
  erewrite collect_relabel;
    [|intros; apply is_child_of_relabel|intros; apply IH].
  by destruct (collect _ _ all).
Qed.

Lemma tree_trace_relabel fuel all :
  tree_trace fuel (g <$> all)
  = relabel g <$> tree_trace fuel all.
Proof.
  unfold tree_trace. apply collect_relabel.
  - apply not_parent_relabel.
  - intros. apply dfs_trace_relabel.
Qed.

End Relabel.

(** * The claims about the tree assembler *)

Section TreeClaims.
Context {A : Type}.
Implicit Types (t : list (Comment A)) (w : Heap) (o : ContentObject).



(** With the parent reference read as the stored key: a comment whose
    key is carried by no row of the table, or by a row attached to another
    content object, never passes the child test of a fetched comment and
    is no root, so it is left out of the tree of its own content object. *)
Lemma get_tree_unmatched_key fuel m t (x : Comment A) p w :
  NoDup (id <$> t) → x ∈ t → parent x = Some p →
  ((∀ q, q ∈ t → id q ≠ p) ∨
   (∃ q, q ∈ t ∧ id q = p ∧ ORM.for_object (owner_of x) q = false)) →
  length (rows_for m t (owner_of x)) ≤ fuel →
  ∃ out w', get_tree fuel m t (owner_of x) w = Some (out, w') ∧
    (x ∉ row <$> out) ∧ (∀ dep, (x, dep) ∉ annotated out w').
Proof.
  intros Hnd Hx Hp Hdangling Hfuel.
  destruct (get_tree_run fuel m t (owner_of x) w Hnd Hfuel)
    as (tr & Htr & Hget & Hview).
  eexists _, _. split; [exact Hget|]. clear Hget.
  set (all := ORM.instantiate (next_addr w) (rows_for m t (owner_of x))) in *.
  assert (row <$> all = rows_for m t (owner_of x)) as Hrows
    by apply row_instantiate.
  assert (NoDup (id <$> (row <$> all))) as Hids.
  { rewrite Hrows. by apply rows_for_NoDup. }
  assert (NoDup (addr <$> all)) as Haddr.
  { unfold all. rewrite addr_instantiate. apply NoDup_seq. }
  assert (x ∉ row <$> tr.*1) as Hout.
  { intros (c & -> & ([c' k] & -> & Hin)%list_elem_of_fmap)%list_elem_of_fmap.
    simpl in *. apply list_elem_of_split in Hin as (pre & post & Hsplit).
    destruct (tree_trace_linked all fuel tr Htr pre c' k post Hsplit)
      as [[Hnp _]|(q & k' & Hq & _ & Hchild)].
    - apply not_parent_None in Hnp. congruence.
    - unfold is_child_of in Hchild. rewrite Hp in Hchild.
      apply Z.eqb_eq in Hchild.
      assert (row q ∈ rows_for m t (owner_of (row c'))) as Hqrow.
      { rewrite <- Hrows. apply list_elem_of_fmap_2.
        eapply tree_trace_within; [done..|].
        simpl in Hq. subst tr. apply list_elem_of_fmap. exists (q, k').
        split; [done|]. apply elem_of_app. by left. }
      apply rows_for_elem in Hqrow as [Hqt Hqo].
      destruct Hdangling as [Hnone|(q0 & Hq0 & Hid & Hother)].
      + by apply (Hnone (row q)).
      + assert (row q = q0) as Heq.
        { apply (same_id_same_row t); [done..|]. by rewrite Hid. }
        rewrite Heq in Hqo. congruence. }
  split; [done|]. intros dep Hin. apply Hout.
  apply list_elem_of_fmap in Hin as (c & [= -> _] & Hc).
  by apply list_elem_of_fmap_2.
Qed.

(** C4.  A content object with exactly the comments A (no parent),
    B (parent A), C (no parent) and D (parent B), fetched in this order,
    yields A at depth 0, B at depth 1, D at depth 2, C at depth 0. *)
Theorem get_tree_scenario fuel m t o w (a b c d : Comment A) :
  rows_for m t o = [a; b; c; d] →
  parent a = None → parent b = Some (id a) →
  parent c = None → parent d = Some (id b) →
  NoDup [id a; id b; id c; id d] →
  3 ≤ fuel →
  ∃ out w', get_tree fuel m t o w = Some (out, w') ∧
    annotated out w' = [(a, Some 0); (b, Some 1); (d, Some 2); (c, Some 0)].
Proof.
  intros Hrows Ha Hb Hc Hd Hnd Hfuel.
  set (n0 := next_addr w).
  set (tr := [(mkInstance (n0 + 0) a, 0); (mkInstance (n0 + 1) b, 1);
              (mkInstance (n0 + 3) d, 2); (mkInstance (n0 + 2) c, 0)] : Trace A).
  assert (id a ≠ id b ∧ id a ≠ id c ∧ id a ≠ id d ∧
          id b ≠ id c ∧ id b ≠ id d ∧ id c ≠ id d) as (Hab & Hac & Had & Hbc & Hbd & Hcd).
  { rewrite !NoDup_cons, !not_elem_of_cons in Hnd. tauto. }
  assert (tree_trace 3 (ORM.instantiate n0 [a; b; c; d]) = Some tr) as Htr.
  { unfold tree_trace, ORM.instantiate. simpl.
    unfold not_parent, is_child_of. simpl.
    rewrite Ha, Hb, Hc, Hd, !Z.eqb_refl.
    rewrite ?(proj2 (Z.eqb_neq (id a) (id b))) by done.
    rewrite ?(proj2 (Z.eqb_neq (id a) (id c))) by done.
    rewrite ?(proj2 (Z.eqb_neq (id a) (id d))) by done.
    rewrite ?(proj2 (Z.eqb_neq (id b) (id c))) by done.
    rewrite ?(proj2 (Z.eqb_neq (id b) (id d))) by done.
    rewrite ?(proj2 (Z.eqb_neq (id b) (id a))) by done.
    reflexivity. }
  apply (tree_trace_mono _ _ _ _ Hfuel) in Htr.
  exists (tr.*1), (mkHeap (n0 + length [a; b; c; d]) (writes tr (depths w))).
  split.
  - rewrite get_tree_tree_trace, Hrows. fold n0. by rewrite Htr.
  - rewrite annotated_writes; [done|].
    simpl. rewrite !NoDup_cons, !not_elem_of_cons.
    repeat split; try lia; try apply not_elem_of_nil. apply NoDup_nil_2.
Qed.



End TreeClaims.

(** * The parent reference, dereferenced *)

Section DereferenceFacts.
Context {A : Type}.
Variable dm : Manager.
Variable t : list (Comment A).
Implicit Types (x s node : Instance A) (c : Comment A) (w : Heap).

Lemma related_cases c :
  (resolves dm t c ∧
   ∃ p, related dm t c = Returned p ∧ id <$> p = parent c) ∨
  (¬ resolves dm t c ∧ related dm t c = RaisedDoesNotExist).
Proof.
  unfold resolves, related. destruct (parent c) as [k|]; [|left; eauto].
  destruct (list_find _ _) as [[i q]|] eqn:Hfind.
  - apply list_find_Some in Hfind as (Hi & <- & _). left. split.
    + apply list_elem_of_fmap_2. by eapply list_elem_of_lookup_2.
    + by exists (Some q).
  - right. split; [|done]. intros (q & -> & Hq)%list_elem_of_fmap.
    apply list_find_None in Hfind. by eapply Forall_forall in Hfind.
Qed.

Lemma is_child_of_deref_cases s node :
  (resolves dm t (row s) ∧
   is_child_of_deref dm t s node = Returned (is_child_of s node)) ∨
  (¬ resolves dm t (row s) ∧
   is_child_of_deref dm t s node = RaisedDoesNotExist).
Proof.
  unfold is_child_of_deref, is_child_of.
  destruct (related_cases (row s)) as [[Hres (p & -> & Hp)]|[Hres ->]];
    [left|right]; (split; [done|]); simpl; [|done].
  rewrite <- Hp. by destruct p.
Qed.

Lemma not_parent_deref_cases x :
  (resolves dm t (row x) ∧
   not_parent_deref dm t x = Returned (not_parent x)) ∨
  (¬ resolves dm t (row x) ∧ not_parent_deref dm t x = RaisedDoesNotExist).
Proof.
  unfold not_parent_deref, not_parent.
  destruct (related_cases (row x)) as [[Hres (p & -> & Hp)]|[Hres ->]];
    [left|right]; (split; [done|]); simpl; [|done].
  rewrite <- Hp. by destruct p.
Qed.

(** A loop whose test and body either do what their key-reading
    counterparts do or raise, does what its counterpart does or raises. *)
Lemma for_extend_deref_simulates (cond : Instance A → bool) cond' body body'
    (xs acc : list (Instance A)) (h : DepthAttrs) :
  (∀ x, cond' x = Returned (cond x) ∨ cond' x = RaisedDoesNotExist) →
  (∀ x h', body' x h' = ran_of_outcome (body x h') ∨
           body' x h' = RaisedDoesNotExist) →
  for_extend_deref cond' body' xs acc h
    = ran_of_outcome (for_extend cond body xs acc h) ∨
  for_extend_deref cond' body' xs acc h = RaisedDoesNotExist.
Proof.
  intros Hc Hb. revert acc h. induction xs as [|x xs IH]; intros acc h; simpl.
  - by left.
  - destruct (Hc x) as [->| ->]; simpl; [|by right].
    destruct (cond x); [|apply IH].
    destruct (Hb x h) as [->| ->]; simpl; [|by right].
    destruct (body x h) as [[sub h']|]; simpl; [apply IH|by left].
Qed.

(** With a test and a body that agree with their counterparts on the
    entries of the list, the loop agrees with its counterpart. *)
Lemma for_extend_deref_agrees (cond : Instance A → bool) cond' body body'
    (xs acc : list (Instance A)) (h : DepthAttrs) :
  (∀ x, x ∈ xs → cond' x = Returned (cond x)) →
  (∀ x h', x ∈ xs → body' x h' = ran_of_outcome (body x h')) →
  for_extend_deref cond' body' xs acc h
    = ran_of_outcome (for_extend cond body xs acc h).
Proof.
  revert acc h. induction xs as [|x xs IH]; intros acc h Hc Hb; simpl; [done|].
  rewrite Hc by left. simpl.
  assert (∀ acc' h', for_extend_deref cond' body' xs acc' h'
                     = ran_of_outcome (for_extend cond body xs acc' h')) as IH'.
  { intros acc' h'. apply IH; intros; [apply Hc|apply Hb]; by right. }
  destruct (cond x); [|apply IH'].
  rewrite Hb by left. destruct (body x h) as [[sub h']|]; simpl; [apply IH'|done].
Qed.

(** A test that raises on an entry of the list keeps the loop from
    returning. *)
Lemma for_extend_deref_raises cond' body' (xs acc : list (Instance A))
    (h : DepthAttrs) x :
  x ∈ xs → cond' x = RaisedDoesNotExist →
  ∀ r, for_extend_deref cond' body' xs acc h ≠ Returned r.
Proof.
  intros Hx Hraise. revert acc h.
  induction xs as [|y xs IH]; intros acc h r; [by apply elem_of_nil in Hx|].
  simpl. apply elem_of_cons in Hx as [<-|Hx].
  - by rewrite Hraise.
  - destruct (cond' y) as [[|]| |]; simpl; [|by apply IH|done..].
    destruct (body' y h) as [[sub h']| |]; simpl; [by apply IH|done..].
Qed.

Lemma dfs_deref_simulates fuel node (all : list (Instance A)) d (h : DepthAttrs) :
  dfs_deref dm t fuel node all d h = ran_of_outcome (dfs fuel node all d h) ∨
  dfs_deref dm t fuel node all d h = RaisedDoesNotExist.
Proof.
  revert node d h. induction fuel as [|f IH]; intros node d h; simpl.
  - by left.
  - apply for_extend_deref_simulates.
    + intros s. destruct (is_child_of_deref_cases s node) as [[_ ->]|[_ ->]];
        [by left|by right].
    + intros s h'. apply IH.
Qed.

Lemma dfs_deref_agrees fuel node (all : list (Instance A)) d (h : DepthAttrs) :
  Forall (λ x, resolves dm t (row x)) all →
  dfs_deref dm t fuel node all d h = ran_of_outcome (dfs fuel node all d h).
Proof.
  intros Hres. revert node d h.
  induction fuel as [|f IH]; intros node d h; simpl; [done|].
  apply for_extend_deref_agrees.
  - intros s Hs. destruct (is_child_of_deref_cases s node) as [[_ ->]|[Hno _]];
      [done|]. exfalso. apply Hno. by eapply Forall_forall in Hres.
  - intros s h' _. apply IH.
Qed.

Lemma fetched_rows (b : nat) (rows : list (Comment A)) (P : Comment A → Prop) :
  Forall P rows → Forall (λ x, P (row x)) (ORM.instantiate b rows).
Proof.
  intros Hall. apply Forall_forall. intros x Hx.
  eapply Forall_forall; [exact Hall|].
  rewrite <- (row_instantiate b rows). by apply list_elem_of_fmap_2.
Qed.

(** [get_tree] either does what the key-reading [get_tree] does, or
    raises. *)
Lemma get_tree_deref_simulates fuel m o w :
  get_tree_deref dm t fuel m o w = ran_of_outcome (get_tree fuel m t o w) ∨
  get_tree_deref dm t fuel m o w = RaisedDoesNotExist.
Proof.
  unfold get_tree_deref, get_tree.
  edestruct (for_extend_deref_simulates not_parent (not_parent_deref dm t)
               (λ child h, dfs fuel child
                  (ORM.instantiate (next_addr w) (rows_for m t o)) 0 h))
    as [->| ->]; [| |left|by right].
  - intros x. destruct (not_parent_deref_cases x) as [[_ ->]|[_ ->]];
      [by left|by right].
  - intros x h'. apply dfs_deref_simulates.
  - by destruct (for_extend _ _ _ _ _) as [[out h']|].
Qed.

(** When every parent key among the fetched rows has a row, nothing
    raises and the two readings of [get_tree] coincide. *)
Lemma get_tree_deref_agrees fuel m o w :
  Forall (resolves dm t) (rows_for m t o) →
  get_tree_deref dm t fuel m o w = ran_of_outcome (get_tree fuel m t o w).
Proof.
  intros Hres. unfold get_tree_deref, get_tree.
  apply (fetched_rows (next_addr w)) in Hres.
  rewrite (for_extend_deref_agrees not_parent _
             (λ child h, dfs fuel child
                (ORM.instantiate (next_addr w) (rows_for m t o)) 0 h)).
  - by destruct (for_extend _ _ _ _ _) as [[out h']|].
  - intros x Hx. destruct (not_parent_deref_cases x) as [[_ ->]|[Hno _]];
      [done|]. exfalso. apply Hno. by eapply Forall_forall in Hres.
  - intros x h' _. by apply dfs_deref_agrees.
Qed.

(** One fetched row whose parent key has no row keeps [get_tree] from
    returning, whatever the fuel. *)
Lemma get_tree_deref_raises fuel m o w c :
  c ∈ rows_for m t o → ¬ resolves dm t c →
  ∀ r, get_tree_deref dm t fuel m o w ≠ Returned r.
Proof.
  intros Hc Hno r. unfold get_tree_deref.
  rewrite <- (row_instantiate (next_addr w)) in Hc.
  apply list_elem_of_fmap in Hc as (x & -> & Hx).
  destruct (for_extend_deref _ _ _ _ _) as [[out h']| |] eqn:Hloop; [|done..].
  exfalso. eapply for_extend_deref_raises; [exact Hx| |exact Hloop].
  by destruct (not_parent_deref_cases x) as [[Hyes _]|[_ ->]].
Qed.

Lemma default_manager_rows q : q ∈ get_query_set dm t → q ∈ t.
Proof.
  unfold get_query_set, ORM.all. destruct dm; [done|].
  by intros [_ ?]%list_elem_of_filter.
Qed.


End DereferenceFacts.

(** * The claims about the visibility filter and the accessors *)

Section FilterClaims.
Context {A : Type} `{AuthorColumns A}.
Implicit Types (t : list (Comment A)) (c : Comment A) (o : ContentObject).

(** C5.  The public manager admits a comment exactly when [is_public] or
    [is_approved] is set.  Any further restriction put on its query set
    selects the rows that the same restriction selects from the plain
    manager and that pass the visibility test: the filter narrows the
    restriction and never replaces it.  This holds in particular for
    the per-object restriction of [get_tree]. *)
Theorem public_filter_narrows t (restrict : Comment A → bool) :
  (∀ c, c ∈ get_query_set PublicThreadedCommentManager t ↔
        c ∈ get_query_set ThreadedCommentManager t ∧
        (is_public c = true ∨ is_approved c = true)) ∧
  (∀ c, c ∈ t → is_public c = false → is_approved c = false →
        c ∉ get_query_set PublicThreadedCommentManager t) ∧
  (∀ c, c ∈ filter (λ x, restrict x = true)
              (get_query_set PublicThreadedCommentManager t) ↔
        c ∈ filter (λ x, restrict x = true)
              (get_query_set ThreadedCommentManager t) ∧
        (is_public c = true ∨ is_approved c = true)) ∧
  filter (λ x, restrict x = true) (get_query_set PublicThreadedCommentManager t)
    = filter (λ x, visible x = true)
        (filter (λ x, restrict x = true) (get_query_set ThreadedCommentManager t)) ∧
  (∀ o, rows_for PublicThreadedCommentManager t o
        = filter (λ x, visible x = true) (rows_for ThreadedCommentManager t o)).
Proof.
  assert (∀ c, visible c = true ↔ is_public c = true ∨ is_approved c = true)
    as Hvis.
  { intros c. unfold visible. apply orb_true_iff. }
  assert (∀ P `{∀ x, Decision (P x)},
    filter P (get_query_set PublicThreadedCommentManager t)
    = filter (λ x, visible x = true)
        (filter P (get_query_set ThreadedCommentManager t))) as Hcomm.
  { intros P HP. unfold get_query_set, ORM.all.
    rewrite !list_filter_filter. apply list_filter_iff. tauto. }
  split; [|split; [|split; [|split]]].
  - intros c. unfold get_query_set, ORM.all.
    rewrite list_elem_of_filter, Hvis. tauto.
  - intros c Hc Hpub Happ. unfold get_query_set, ORM.all.
    rewrite list_elem_of_filter, Hvis. intros [[?|?] _]; congruence.
  - intros c. rewrite Hcomm, list_elem_of_filter, Hvis. tauto.
  - apply Hcomm.
  - intros o. unfold rows_for. apply Hcomm.
Qed.

(** How many entries of a list pass a test, told by their positions. *)
Lemma filter_none_iff {B : Type} (P : B → Prop) `{∀ x, Decision (P x)}
    (l : list B) :
  filter P l = [] ↔ ∀ y, y ∈ l → ¬ P y.
Proof.
  induction l as [|x l IH]; simpl.
  - split; [|done]. intros _ y Hy. by apply elem_of_nil in Hy.
  - rewrite filter_cons. destruct (decide (P x)) as [Hx|Hx].
    + split; [done|]. intros Hall. exfalso. apply (Hall x); [left|done].
    + rewrite IH. split.
      * intros Hall y [->|Hy]%elem_of_cons; auto.
      * intros Hall y Hy. apply Hall. by right.
Qed.

Lemma filter_one_iff {B : Type} (P : B → Prop) `{∀ x, Decision (P x)}
    (l : list B) (e : B) :
  filter P l = [e] ↔
  ∃ i, l !! i = Some e ∧ P e ∧ ∀ j y, l !! j = Some y → P y → j = i.
Proof.
  induction l as [|x l IH]; simpl.
  - split; [done|]. by intros (i & Hi & _).
  - rewrite filter_cons. destruct (decide (P x)) as [Hx|Hx].
    + split.
      * intros [= -> Hnil]. exists 0. split; [done|]. split; [done|].
        intros [|j] y Hj Hy; [done|]. exfalso. simpl in Hj.
        apply (proj1 (filter_none_iff P l) Hnil y); [|done].
        by eapply list_elem_of_lookup_2.
      * intros (i & Hi & He & Huniq).
        assert (i = 0) as -> by (symmetry; by apply (Huniq 0 x)).
        simpl in Hi. injection Hi as ->. f_equal.
        apply filter_none_iff. intros y (j & Hj)%list_elem_of_lookup Hy.
        by specialize (Huniq (S j) y Hj Hy).
    + rewrite IH. split.
      * intros (i & Hi & He & Huniq). exists (S i). split; [done|].
        split; [done|]. intros [|j] y Hj Hy; simpl in Hj.
        -- by injection Hj as ->.
        -- f_equal. by apply (Huniq j y).
      * intros ([|i] & Hi & He & Huniq); simpl in Hi.
        -- by injection Hi as ->.
        -- exists i. split; [done|]. split; [done|]. intros j y Hj Hy.
           by specialize (Huniq (S j) y Hj Hy) as [= ->].
Qed.

Lemma filter_several_iff {B : Type} (P : B → Prop) `{∀ x, Decision (P x)}
    (l : list B) :
  1 < length (filter P l) ↔
  ∃ i j y z, i < j ∧ l !! i = Some y ∧ l !! j = Some z ∧ P y ∧ P z.
Proof.
  induction l as [|x l IH]; simpl.
  - split; [lia|]. by intros (i & j & y & z & _ & Hi & _).
  - rewrite filter_cons. destruct (decide (P x)) as [Hx|Hx].
    + split.
      * intros Hlen. destruct (filter P l) as [|z l'] eqn:Hf; [simpl in Hlen; lia|].
        assert (z ∈ filter P l) as [Hz Hin]%list_elem_of_filter
          by (rewrite Hf; left).
        apply list_elem_of_lookup in Hin as [j Hj].
        exists 0, (S j), x, z. split; [lia|]. done.
      * intros (i & [|j] & y & z & Hij & Hi & Hj & Hy & Hz); [lia|].
        simpl in Hj. simpl.
        assert (z ∈ filter P l) as Hin.
        { apply list_elem_of_filter. split; [done|].
          by eapply list_elem_of_lookup_2. }
        destruct (filter P l); [by apply elem_of_nil in Hin|simpl; lia].
    + rewrite IH. split.
      * intros (i & j & y & z & Hij & Hi & Hj & Hy & Hz).
        exists (S i), (S j), y, z. split; [lia|]. done.
      * intros ([|i] & [|j] & y & z & Hij & Hi & Hj & Hy & Hz);
          simpl in Hi, Hj; try lia.
        -- by injection Hi as ->.
        -- exists i, j, y, z. split; [lia|]. done.
Qed.

(** The filter that [get_for_object] hands to the query set selects the
    rows that are asked for: those of the owner that agree with every
    keyword of the caller. *)
Lemma matches_asked_for o (kwargs : Kwargs A) c :
  matches (_generate_object_kwarg_dict o kwargs) c = true ↔
  asked_for o kwargs c.
Proof.
  unfold matches, asked_for, agrees. simpl.
  rewrite !andb_true_iff, !bool_decide_eq_true.
  destruct (kw_id kwargs), (kw_parent kwargs), (kw_author kwargs),
    (kw_date_submitted kwargs), (kw_date_modified kwargs),
    (kw_date_approved kwargs), (kw_comment kwargs), (kw_markup kwargs),
    (kw_is_public kwargs), (kw_is_approved kwargs), (kw_ip_address kwargs);
    rewrite ?bool_decide_eq_true;
    (split; [intros Hm; repeat split; try (intros ? [= <-]); try done;
             intuition congruence
            |intros (? & ? & H1 & H2 & H3 & H4 & H5 & H6 & H7 & H8 & H9
                     & H10 & H11);
             repeat split; try done; symmetry; auto]).
Qed.

(** C8.  [get_for_object] returns a comment exactly when that comment is
    the one record of the manager's query set that is attached to the owner
    and agrees with every keyword of the caller; it fails with
    [DoesNotExist] exactly when no record is, and with
    [MultipleObjectsReturned] exactly when two or more are. *)
Theorem get_for_object_exactly_one m t o (kwargs : Kwargs A) :
  let qs := get_query_set m t in
  (∀ c, get_for_object m t o kwargs = Found c ↔
        ∃ i, qs !! i = Some c ∧ asked_for o kwargs c ∧
             ∀ j y, qs !! j = Some y → asked_for o kwargs y → j = i) ∧
  (get_for_object m t o kwargs = DoesNotExist ↔
        ∀ y, y ∈ qs → ¬ asked_for o kwargs y) ∧
  (get_for_object m t o kwargs = MultipleObjectsReturned ↔
        ∃ i j y z, i < j ∧ qs !! i = Some y ∧ qs !! j = Some z ∧
                   asked_for o kwargs y ∧ asked_for o kwargs z).
Proof.
  intros qs. unfold get_for_object. fold qs.
  set (P := λ c : Comment A,
              matches (_generate_object_kwarg_dict o kwargs) c = true).
  assert (∀ c, P c ↔ asked_for o kwargs c) as HP
    by (intros c; apply matches_asked_for).
  split; [|split].
  - intros c. transitivity (filter P qs = [c]).
    + destruct (filter P qs) as [|x [|y l]]; simpl; split; congruence.
    + rewrite filter_one_iff. split.
      * intros (i & Hi & Hc & Huniq). exists i. split; [done|].
        split; [by apply HP|]. intros j y Hj Hy. apply (Huniq j y Hj).
        by apply HP.
      * intros (i & Hi & Hc & Huniq). exists i. split; [done|].
        split; [by apply HP|]. intros j y Hj Hy. apply (Huniq j y Hj).
        by apply HP.
  - transitivity (filter P qs = []).
    + destruct (filter P qs) as [|x [|y l]]; simpl; split; congruence.
    + rewrite filter_none_iff. split.
      * intros Hall y Hy Hask. apply (Hall y Hy). by apply HP.
      * intros Hall y Hy Hask. apply (Hall y Hy). by apply HP.
  - transitivity (1 < length (filter P qs)).
    + destruct (filter P qs) as [|x [|y l]]; simpl; split;
        (congruence || lia).
    + rewrite filter_several_iff. split.
      * intros (i & j & y & z & Hij & Hi & Hj & Hy & Hz).
        exists i, j, y, z. rewrite <- !HP. done.
      * intros (i & j & y & z & Hij & Hi & Hj & Hy & Hz).
        exists i, j, y, z. rewrite !HP. done.
Qed.

End FilterClaims.

(** * The claims about the write path *)

Section WriteClaims.
Context {A : Type} `{AuthorColumns A}.
Implicit Types (self : Comment A) (w : World A).

Lemma stored_write_row self (t : list (Comment A)) :
  snd <$> list_find (λ x, id x = id self) (Model.write_row self t) = Some self.
Proof.
  induction t as [|x t IH]; simpl.
  - by rewrite decide_True.
  - destruct (Z.eqb_spec (id x) (id self)) as [Heq|Hne]; simpl.
    + by rewrite decide_True.
    + rewrite decide_False by done.
      destruct (list_find _ (Model.write_row self t)) as [[i y]|]; simpl in *;
        congruence.
Qed.

Lemma save_id self w : id (save self w).1 = id self.
Proof.
  unfold save. destruct (markup_falsy (markup self)); simpl;
    destruct (is_approved self) eqn:Ea, (date_approved self) eqn:Ed; simpl; done.
Qed.

(** [save] leaves in the table, under the object's key, exactly the
    object as it is after the call. *)
Lemma save_stored self w : stored (id self) (save self w).2 = Some (save self w).1.
Proof.
  unfold save, stored. destruct (markup_falsy (markup self)); simpl;
    destruct (is_approved self) eqn:Ea, (date_approved self) eqn:Ed; simpl;
    apply (stored_write_row (mkComment _ _ _ _ _ _ _ _ _ _ _ _ _)).
Qed.

Lemma save_markup self w :
  markup (save self w).1 =
  if markup_falsy (markup self) then Some PLAINTEXT else markup self.
Proof.
  unfold save. destruct (markup_falsy (markup self)); simpl;
    destruct (is_approved self) eqn:Ea, (date_approved self) eqn:Ed; simpl; done.
Qed.

Lemma save_date_approved self w :
  date_approved (save self w).1 =
  match date_approved self with
  | Some d => Some d
  | None => if is_approved self then Some (clock w 1) else None
  end.
Proof.
  unfold save. destruct (markup_falsy (markup self)); simpl;
    destruct (is_approved self) eqn:Ea, (date_approved self) eqn:Ed; simpl; done.
Qed.

(** C6.  A write of a comment whose markup is unset or falsy stores it
    with the plaintext markup; and a comment created without a markup
    keyword, or with a falsy one, is stored with the plaintext markup. *)
Theorem save_markup_plaintext :
  (∀ self w, markup_falsy (markup self) = true →
     markup (save self w).1 = Some PLAINTEXT ∧
     ∃ persisted, stored (id self) (save self w).2 = Some persisted ∧
                  markup persisted = Some PLAINTEXT) ∧
  (∀ o (kwargs : Kwargs A) w,
     (kw_markup kwargs = None ∨
      ∃ mk, kw_markup kwargs = Some mk ∧ markup_falsy mk = true) →
     (is_Some (kw_author kwargs) ∨ is_Some (author_default (A := A))) →
     ∃ obj w', create_for_object o kwargs w = Some (obj, w') ∧
       markup obj = Some PLAINTEXT ∧
       ∃ persisted, stored (id obj) w' = Some persisted ∧
                    markup persisted = Some PLAINTEXT).
Proof.
  split.
  - intros self w Hfalsy.
    assert (markup (save self w).1 = Some PLAINTEXT) as Hm.
    { by rewrite save_markup, Hfalsy. }
    split; [done|]. exists (save self w).1. split; [apply save_stored | done].
  - intros o kwargs w Hmk Hauthor.
    unfold create_for_object, create, construct. simpl.
    assert (∃ a, match kw_author kwargs with
                 | Some a => Some a
                 | None => author_default
                 end = Some a) as [a ->].
    { destruct Hauthor as [[a ->]|[a Ha]]; [by exists a|].
      destruct (kw_author kwargs) as [a'|]; eauto. }
    destruct (match kw_date_submitted kwargs with
              | Some d => (d, w)
              | None => Model.datetime_now w
              end) as [submitted w1].
    destruct (match kw_date_modified kwargs with
              | Some d => (d, w1)
              | None => Model.datetime_now w1
              end) as [modified w2].
    set (obj := mkComment _ _ _ _ _ _ _ _ _ _ _ _ _).
    destruct (save obj w2) as [obj' w'] eqn:Esave.
    assert (obj' = (save obj w2).1) as Hobj by (by rewrite Esave).
    assert (w' = (save obj w2).2) as Hw by (by rewrite Esave).
    assert (markup obj' = Some PLAINTEXT) as Hm.
    { rewrite Hobj, save_markup. subst obj. simpl.
      destruct Hmk as [->|(mk & -> & Hf)]; simpl; [done|].
      by rewrite Hf. }
    exists obj', w'. split; [done|]. split; [done|].
    exists obj'. split; [|done].
    rewrite Hobj at 1. rewrite save_id, Hw, Hobj. apply save_stored.
Qed.

Lemma act_id a (st : Comment A * World A) : id (act a st).1 = id st.1.
Proof. destruct a; simpl; try done. apply save_id. Qed.

Lemma act_date_approved a (st : Comment A * World A) d :
  date_approved st.1 = Some d → date_approved (act a st).1 = Some d.
Proof.
  intros Hd. destruct a; simpl; try done.
  by rewrite save_date_approved, Hd.
Qed.

Lemma run_snoc acts a (st : Comment A * World A) :
  run (acts ++ [a]) st = act a (run acts st).
Proof. unfold run. by rewrite foldl_app. Qed.

Lemma run_invariant acts (st : Comment A * World A) d :
  date_approved st.1 = Some d →
  date_approved (run acts st).1 = Some d ∧ id (run acts st).1 = id st.1.
Proof.
  intros Hd. induction acts as [|a acts IH] using rev_ind; [done|].
  destruct IH as [IHd IHid]. rewrite run_snoc. split.
  - by apply act_date_approved.
  - by rewrite act_id.
Qed.

(** C7.  A save of a comment that is approved and carries no approval
    date stamps it with the clock reading taken for that purpose; a save
    of an unapproved one leaves the date unset; and once the date is set,
    no sequence of assignments to the comment's flags, markup or text
    and of saves changes it, neither on the object nor in the stored
    row. *)
Theorem approval_stamp_once :
  (∀ self w, date_approved self = None → is_approved self = true →
     date_approved (save self w).1 = Some (clock w 1) ∧
     date_approved <$> stored (id self) (save self w).2 = Some (Some (clock w 1))) ∧
  (∀ self w, date_approved self = None → is_approved self = false →
     date_approved (save self w).1 = None) ∧
  (∀ acts self w d, date_approved self = Some d →
     date_approved (run acts (self, w)).1 = Some d ∧
     date_approved <$> stored (id self) (run (acts ++ [Save]) (self, w)).2
       = Some (Some d)).
Proof.
  split; [|split].
  - intros self w Hnone Happ.
    assert (date_approved (save self w).1 = Some (clock w 1)) as Hd.
    { by rewrite save_date_approved, Hnone, Happ. }
    split; [done|]. by rewrite save_stored; simpl; rewrite Hd.
  - intros self w Hnone Happ. by rewrite save_date_approved, Hnone, Happ.
  - intros acts self w d Hd.
    destruct (run_invariant acts (self, w) d Hd) as [Hrun Hid].
    split; [done|]. rewrite run_snoc. simpl in *.
    rewrite <- Hid, save_stored. simpl.
    by rewrite save_date_approved, Hrun.
Qed.

End WriteClaims.

(** * The claims at work on the sample store *)





Lemma get_tree_scenario_witness :
  ∃ out w',
    get_tree 5 ThreadedCommentManager Scenario.thread Scenario.page
             Scenario.heap0 = Some (out, w') ∧
    annotated out w' = [(Scenario.cA, Some 0); (Scenario.cB, Some 1);
                        (Scenario.cD, Some 2); (Scenario.cC, Some 0)].
Proof.
  apply (get_tree_scenario 5 ThreadedCommentManager Scenario.thread
           Scenario.page Scenario.heap0).
  - vm_compute. reflexivity.
  - reflexivity.
  - reflexivity.
  - reflexivity.
  - reflexivity.
  - apply (bool_decide_unpack _). vm_compute. reflexivity.
  - lia.
Defined.



Lemma public_filter_narrows_witness :
  Scenario.cHidden ∉ get_query_set PublicThreadedCommentManager Scenario.damaged.
Proof.
  apply (proj1 (proj2 (public_filter_narrows Scenario.damaged (λ _, true)))).
  - unfold Scenario.damaged. apply elem_of_app. right. do 2 right. left.
  - reflexivity.
  - reflexivity.
Defined.

Lemma get_for_object_exactly_one_witness :
  get_for_object ThreadedCommentManager Scenario.thread Scenario.page
                 (by_id 3%Z) = Found Scenario.cC ∧
  get_for_object ThreadedCommentManager Scenario.thread Scenario.page
                 (by_id 9%Z) = DoesNotExist ∧
  get_for_object ThreadedCommentManager Scenario.thread Scenario.page
                 Strays.top_level = MultipleObjectsReturned.
Proof.
  destruct (get_for_object_exactly_one ThreadedCommentManager Scenario.thread
              Scenario.page (by_id 3%Z)) as (Hone & _ & _).
  destruct (get_for_object_exactly_one ThreadedCommentManager Scenario.thread
              Scenario.page (by_id 9%Z)) as (_ & Hnone & _).
  destruct (get_for_object_exactly_one ThreadedCommentManager Scenario.thread
              Scenario.page Strays.top_level) as (_ & _ & Hmany).
  split; [|split].
  - apply Hone. exists 3. split; [reflexivity|]. split.
    + unfold asked_for. simpl. repeat split; try discriminate.
      by intros v [= <-].
    + intros j y Hj (_ & _ & Hid & _). specialize (Hid 3%Z eq_refl).
      do 5 (destruct j as [|j];
            [injection Hj as <-; first [reflexivity | discriminate Hid]|]).
      discriminate Hj.
  - apply Hnone. intros y Hy (_ & Hoid & Hid & _).
    specialize (Hid 9%Z eq_refl).
    repeat (apply elem_of_cons in Hy as [->|Hy];
            [first [discriminate Hid | discriminate Hoid]|]).
    by apply elem_of_nil in Hy.
  - apply Hmany. exists 0, 3, Scenario.cA, Scenario.cC.
    split; [lia|]. split; [reflexivity|]. split; [reflexivity|].
    split; unfold asked_for; simpl; repeat split; try discriminate;
      by intros v [= <-].
Defined.

Lemma save_markup_plaintext_witness :
  (markup (save Scenario.cHidden Scenario.world0).1 = Some PLAINTEXT ∧
   ∃ persisted,
     stored (id Scenario.cHidden) (save Scenario.cHidden Scenario.world0).2
       = Some persisted ∧
     markup persisted = Some PLAINTEXT) ∧
  (∃ obj w',
     create_for_object Scenario.page Scenario.by_author Scenario.world0
       = Some (obj, w') ∧
     markup obj = Some PLAINTEXT ∧
     ∃ persisted, stored (id obj) w' = Some persisted ∧
                  markup persisted = Some PLAINTEXT).
Proof.
  split.
  - apply (proj1 save_markup_plaintext Scenario.cHidden Scenario.world0).
    reflexivity.
  - apply (proj2 save_markup_plaintext Scenario.page Scenario.by_author
             Scenario.world0).
    + left. reflexivity.
    + left. eexists. reflexivity.
Defined.

Lemma approval_stamp_once_witness :
  (date_approved (save Scenario.approved_draft Scenario.world0).1 = Some 1001%Z ∧
   date_approved <$>
     stored (id Scenario.approved_draft)
            (save Scenario.approved_draft Scenario.world0).2
     = Some (Some 1001%Z)) ∧
  (date_approved
     (run [Assign_is_approved false; Save; Assign_is_approved true; Save]
          (Scenario.stamped, Scenario.world0)).1 = Some 500%Z ∧
   date_approved <$>
     stored (id Scenario.stamped)
       (run ([Assign_is_approved false; Save; Assign_is_approved true; Save]
             ++ [Save])
            (Scenario.stamped, Scenario.world0)).2
     = Some (Some 500%Z)).
Proof.
  split.
  - apply (proj1 approval_stamp_once Scenario.approved_draft Scenario.world0);
      reflexivity.
  - apply (proj2 (proj2 approval_stamp_once)
             [Assign_is_approved false; Save; Assign_is_approved true; Save]
             Scenario.stamped Scenario.world0 500%Z).
    reflexivity.
Defined.

(** * Further checks on the sample store *)

(** The damaged table, seen through the plain manager: the two comments
    with dangling parents are missing, the hidden one is a root. *)
Example get_tree_damaged :
  (λ r, annotated r.1 r.2) <$>
    get_tree 7 ThreadedCommentManager Scenario.damaged Scenario.page Scenario.heap0
  = Some [(Scenario.cA, Some 0); (Scenario.cB, Some 1); (Scenario.cD, Some 2);
          (Scenario.cC, Some 0); (Scenario.cHidden, Some 0)].
Proof. vm_compute. reflexivity. Qed.

(** The same through the public manager. *)
Example get_tree_damaged_public :
  (λ r, annotated r.1 r.2) <$>
    get_tree 7 PublicThreadedCommentManager Scenario.damaged Scenario.page
             Scenario.heap0
  = Some [(Scenario.cA, Some 0); (Scenario.cB, Some 1); (Scenario.cD, Some 2);
          (Scenario.cC, Some 0)].
Proof. vm_compute. reflexivity. Qed.

(** Comments on a cycle are never entered. *)
Example get_tree_looped :
  (λ r, annotated r.1 r.2) <$>
    get_tree 3 ThreadedCommentManager Scenario.looped Scenario.page Scenario.heap0
  = Some [(Scenario.cA, Some 0)].
Proof. vm_compute. reflexivity. Qed.

(** Distinct primary keys are what termination rests on: were a row to
    share the key of a root and name it as parent, no amount of fuel would
    let the traversal return. *)
Example get_tree_twins_diverge fuel :
  get_tree fuel ThreadedCommentManager Scenario.twins Scenario.page Scenario.heap0
  = None.
Proof.
  assert (∀ f d h, dfs f (mkInstance 1 Scenario.cA')
                      [mkInstance 0 Scenario.cA; mkInstance 1 Scenario.cA'] d h
                   = None) as Hreply.
  { induction f as [|f IH]; intros d h; [done|].
    simpl. by rewrite IH. }
  unfold get_tree. simpl.
  destruct fuel as [|f]; [done|].
  simpl. by rewrite Hreply.
Qed.

(** Lookups that several, one and none of the comments match. *)
Example get_for_object_ambiguous :
  get_for_object PublicThreadedCommentManager Scenario.damaged Scenario.page
                 Scenario.no_kwargs = MultipleObjectsReturned
  ∧ get_for_object PublicThreadedCommentManager Scenario.damaged Scenario.other_page
                   Scenario.no_kwargs = Found Scenario.cO
  ∧ get_for_object PublicThreadedCommentManager Scenario.damaged
                   (mkContentObject 7 44) Scenario.no_kwargs = DoesNotExist.
Proof. vm_compute. done. Qed.

(** One write of an approved draft without markup: the markup defaults,
    the first clock reading dates the modification, the second the
    approval. *)
Example save_approved_draft :
  let self := (save Scenario.approved_draft Scenario.world0).1 in
  markup self = Some PLAINTEXT ∧ date_modified self = 1000%Z ∧
  date_approved self = Some 1001%Z ∧ date_submitted self = 108%Z.
Proof. vm_compute. done. Qed.

(** * More about the tree assembler *)

Section MoreListFacts.

Lemma filter_fmap {B C} (f : B → C) (P : C → Prop) `{∀ y, Decision (P y)}
    (l : list B) :
  filter P (f <$> l) = f <$> filter (λ x, P (f x)) l.
Proof.
  induction l as [|x l IH]; [done|].
  rewrite fmap_cons, !filter_cons. destruct (decide (P (f x))); simpl;
    by rewrite IH.
Qed.

Lemma filter_none {B} (P : B → Prop) `{∀ y, Decision (P y)} (l : list B) :
  (∀ x, x ∈ l → ¬ P x) → filter P l = [].
Proof.
  induction l as [|x l IH]; intros Hno; [done|].
  rewrite filter_cons, decide_False by (apply Hno; left).
  apply IH. intros y Hy. apply Hno. by right.
Qed.

Lemma gentle_app (l1 l2 : list nat) :
  climbs_gently l1 → climbs_gently l2 →
  (∀ a b, last l1 = Some a → head l2 = Some b → b ≤ S a) →
  climbs_gently (l1 ++ l2).
Proof.
  intros H1 H2 Hjoin i a b Ha Hb.
  destruct (decide (S i < length l1)) as [Hin|Hout].
  - rewrite lookup_app_l in Ha by lia. rewrite lookup_app_l in Hb by lia.
    by eapply H1.
  - destruct (decide (S i = length l1)) as [Hedge|Hpast].
    + rewrite lookup_app_l in Ha by lia.
      rewrite lookup_app_r in Hb by lia.
      apply Hjoin.
      * rewrite last_lookup. by replace (pred (length l1)) with i by lia.
      * rewrite head_lookup. by replace 0 with (S i - length l1) by lia.
    + rewrite lookup_app_r in Ha by lia. rewrite lookup_app_r in Hb by lia.
      replace (S i - length l1) with (S (i - length l1)) in Hb by lia.
      by eapply H2.
Qed.

Lemma gentle_floor_concat (b : nat) (ls : list (list nat)) :
  Forall (λ l, climbs_gently l ∧ head l = Some b ∧ Forall (λ k, b ≤ k) l) ls →
  climbs_gently (concat ls) ∧ Forall (λ k, b ≤ k) (concat ls) ∧
  (∀ x, head (concat ls) = Some x → x = b).
Proof.
  induction 1 as [|l ls (Hl & Hhead & Hfloor) _ (IHg & IHf & IHh)]; simpl.
  - split; [|split; [constructor|done]]. by intros i a c ?.
  - split; [|split].
    + apply gentle_app; [done..|].
      intros a c Ha Hc. apply IHh in Hc as ->.
      apply last_Some_elem_of in Ha. rewrite Forall_forall in Hfloor.
      specialize (Hfloor a Ha). lia.
    + by apply Forall_app.
    + apply head_Some in Hhead as [l' ->]. simpl. by intros x [= <-].
Qed.

End MoreListFacts.

Section MoreTreeFacts.
Context {A : Type}.
Implicit Types (t : list (Comment A)) (w : Heap) (o : ContentObject).

Lemma for_extend_skip (cond : Instance A → bool)
    (body : Instance A → DepthAttrs → Outcome A) xs acc h :
  (∀ x, x ∈ xs → cond x = false) → for_extend cond body xs acc h = Some (acc, h).
Proof.
  revert acc h. induction xs as [|x xs IH]; intros acc h Hno; simpl; [done|].
  rewrite (Hno x) by left. apply IH. intros y Hy. apply Hno. by right.
Qed.

Lemma dfs_trace_elem fuel node (all : list (Instance A)) d tr p :
  dfs_trace fuel node all d = Some tr → node ∈ all → p ∈ tr → p.1 ∈ all.
Proof.
  intros Htr Hnode. revert p. revert Hnode. revert Htr.
  apply (dfs_trace_explore
           (λ node d tr, node ∈ all → ∀ p, p ∈ tr → p.1 ∈ all) all).
  clear. intros node d trs HF Hnode p [->|Hp]%elem_of_cons; [done|].
  apply elem_of_concat in Hp as (t & Ht & Hp).
  destruct (Forall2_elem_r _ _ _ t HF Ht) as (s & _ & Hs & _ & _ & IH).
  by apply IH.
Qed.

Lemma tree_trace_elem fuel (all : list (Instance A)) tr p :
  tree_trace fuel all = Some tr → p ∈ tr → p.1 ∈ all.
Proof.
  intros (trs & HF & ->)%tree_trace_Some (t & Ht & Hp)%elem_of_concat.
  destruct (Forall2_elem_r _ _ _ t HF Ht) as (root & Hroot & Hdfs).
  apply list_elem_of_filter in Hroot as [_ Hroot].
  by eapply dfs_trace_elem.
Qed.

(** A traversal starts with its node, and goes deeper for all the rest. *)
Lemma dfs_trace_head fuel node (all : list (Instance A)) d tr :
  dfs_trace fuel node all d = Some tr →
  ∃ rest, tr = (node, d) :: rest ∧ ∀ p, p ∈ rest → S d ≤ p.2.
Proof.
  destruct fuel as [|f]; simpl; [done|].
  rewrite fmap_Some. intros (rest & (trs & HF & ->)%collect_Some & ->).
  eexists. split; [done|]. intros [c k] (t & Ht & Hp)%elem_of_concat.
  destruct (Forall2_elem_r _ _ _ t HF Ht) as (s & _ & Hs). simpl in *.
  by eapply dfs_trace_depth_ge.
Qed.

(** Whoever is written with a parent reference has the parent written. *)
Lemma tree_trace_parent_written fuel (all : list (Instance A)) tr c k p :
  tree_trace fuel all = Some tr → (c, k) ∈ tr → parent (row c) = Some p →
  ∃ q k', (q, k') ∈ tr ∧ id (row q) = p ∧ k = S k'.
Proof.
  intros Htr Hin Hp. apply list_elem_of_split in Hin as (pre & post & Hsplit).
  destruct (tree_trace_linked all fuel tr Htr pre c k post Hsplit)
    as [[Hnp _]|(q & k' & Hq & -> & Hchild)].
  - apply not_parent_None in Hnp. congruence.
  - unfold is_child_of in Hchild. rewrite Hp in Hchild.
    apply Z.eqb_eq in Hchild. exists q, k'. split; [|done].
    simpl in Hq. subst tr. apply elem_of_app. by left.
Qed.

Lemma rows_for_public_visible t o c :
  c ∈ rows_for PublicThreadedCommentManager t o → visible c = true.
Proof.
  unfold rows_for, get_query_set, ORM.all.
  intros [_ Hc]%list_elem_of_filter. by apply list_elem_of_filter in Hc as [Hc _].
Qed.

Lemma rows_for_intro m t o c :
  c ∈ t → ORM.for_object o c = true →
  (m = PublicThreadedCommentManager → visible c = true) →
  c ∈ rows_for m t o.
Proof.
  intros Hc Ho Hvis. unfold rows_for, get_query_set, ORM.all.
  apply list_elem_of_filter. split; [done|].
  destruct m; [done|]. apply list_elem_of_filter. auto.
Qed.




(** X4.  A call leaves alone the [depth] attribute of every object that
    existed before it: it writes only to the objects it fetched itself,
    which are the ones it returns from, at the next free addresses. *)
Theorem get_tree_frame fuel m t o w out w' :
  get_tree fuel m t o w = Some (out, w') →
  next_addr w' = next_addr w + length (rows_for m t o) ∧
  (∀ x, x ∈ out → next_addr w ≤ addr x < next_addr w') ∧
  (∀ a, a < next_addr w → depths w' !! a = depths w !! a).
Proof.
  rewrite get_tree_tree_trace.
  destruct (tree_trace _ _) as [tr|] eqn:Htr; simpl; [|done].
  intros [= <- <-]. simpl. split; [done|].
  assert (∀ x, x ∈ tr.*1 →
               next_addr w ≤ addr x < next_addr w + length (rows_for m t o))
    as Hrange.
  { intros x ([x' k] & -> & Hin)%list_elem_of_fmap.
    apply addr_instantiate_range. by apply (tree_trace_elem _ _ _ _ Htr Hin). }
  split; [done|]. intros a Ha. apply writes_lookup_other.
  intros (x & -> & Hx)%list_elem_of_fmap. apply Hrange in Hx. lia.
Qed.


End MoreTreeFacts.

Section TreeShape.
Context {A : Type}.
Implicit Types (t : list (Comment A)) (w : Heap) (o : ContentObject).

Lemma fmap_concat {B C} (f : B → C) (ls : list (list B)) :
  f <$> concat ls = concat ((λ l : list B, f <$> l) <$> ls).
Proof.
  induction ls as [|l ls IH]; [done|]. simpl. by rewrite fmap_app, IH.
Qed.

Lemma roots_of_concat fuel (all roots : list (Instance A)) trs :
  Forall2 (λ c (tr : Trace A), dfs_trace fuel c all 0 = Some tr) roots trs →
  filter (λ p : Instance A * nat, p.2 = 0) (concat trs) = (λ x, (x, 0)) <$> roots.
Proof.
  induction 1 as [|c t roots trs Hdfs _ IH]; [done|].
  simpl. rewrite filter_app, IH.
  apply dfs_trace_head in Hdfs as (rest & -> & Hdeep).
  rewrite filter_cons, decide_True by done.
  rewrite filter_none; [done|]. intros p Hp. apply Hdeep in Hp. lia.
Qed.

Lemma tree_trace_roots fuel (all : list (Instance A)) tr :
  tree_trace fuel all = Some tr →
  filter (λ p : Instance A * nat, p.2 = 0) tr
  = (λ x, (x, 0)) <$> filter (λ c, not_parent c = true) all.
Proof.
  intros (trs & HF & ->)%tree_trace_Some. by eapply roots_of_concat.
Qed.


Lemma gentle_cons (a : nat) (l : list nat) :
  climbs_gently l → (∀ b, head l = Some b → b ≤ S a) → climbs_gently (a :: l).
Proof.
  intros Hl Hjoin. apply (gentle_app [a] l); [|done|].
  - intros i x y _ Hy. by destruct i.
  - intros x b [= <-]. apply Hjoin.
Qed.

(** The depths of a traversal start at the start depth, never fall below
    it, and rise by at most one at a time. *)
Lemma dfs_trace_gentle fuel node (all : list (Instance A)) d tr :
  dfs_trace fuel node all d = Some tr →
  climbs_gently tr.*2 ∧ head tr.*2 = Some d ∧ Forall (λ k, d ≤ k) tr.*2.
Proof.
  revert fuel node d tr.
  apply (dfs_trace_explore (λ node d tr,
    climbs_gently tr.*2 ∧ head tr.*2 = Some d ∧ Forall (λ k, d ≤ k) tr.*2) all).
  intros node d trs HF.
  destruct (gentle_floor_concat (S d) ((λ t : Trace A, t.*2) <$> trs))
    as (Hg & Hf & Hh).
  { apply Forall_fmap, Forall_forall. intros t Ht.
    destruct (Forall2_elem_r _ _ _ t HF Ht) as (s & _ & _ & _ & _ & IH).
    exact IH. }
  rewrite fmap_cons, fmap_concat. simpl. split; [|split; [done|]].
  - apply gentle_cons; [done|]. intros b Hb. apply Hh in Hb. lia.
  - constructor; [done|]. eapply Forall_impl; [exact Hf|]. simpl. lia.
Qed.


End TreeShape.

Section DfsOffset.
Context {A : Type}.

Lemma collect_deepen (k : nat) (cond : Instance A → bool)
    (body body' : Instance A → option (Trace A)) xs :
  (∀ x, body' x = deepen k <$> body x) →
  collect cond body' xs = deepen k <$> collect cond body xs.
Proof.
  intros Hbody. induction xs as [|x xs IH]; [done|].
  simpl. rewrite Hbody, IH. destruct (cond x); [|done].
  destruct (body x) as [tr|]; simpl; [|done].
  destruct (collect cond body xs) as [tr'|]; simpl; [|done].
  unfold deepen. by rewrite fmap_app.
Qed.

Lemma dfs_trace_deepen fuel node (all : list (Instance A)) d k :
  dfs_trace fuel node all (d + k) = deepen k <$> dfs_trace fuel node all d.
Proof.
  revert node d. induction fuel as [|f IH]; intros node d; simpl; [done|].
  erewrite (collect_deepen k); [|intros s; apply (IH s (S d))].
  by destruct (collect _ _ all).
Qed.

Lemma deepen_objects k (tr : Trace A) : (deepen k tr).*1 = tr.*1.
Proof. unfold deepen. rewrite <- list_fmap_compose. done. Qed.

Lemma writes_deepen k (tr : Trace A) (h h' : DepthAttrs) a :
  a ∈ addr <$> tr.*1 ∨ h' !! a = (λ n, n + k) <$> h !! a →
  writes (deepen k tr) h' !! a = (λ n, n + k) <$> writes tr h !! a.
Proof.
  revert h h'. induction tr as [|[c n] tr IH]; intros h h' Hor; simpl.
  - destruct Hor as [Hin|Heq]; [|done]. by apply elem_of_nil in Hin.
  - apply IH. destruct (decide (a = addr c)) as [->|Hne].
    + right. simpl. by rewrite !lookup_insert_eq.
    + destruct Hor as [Hin|Heq].
      * left. rewrite !fmap_cons in Hin.
        by apply elem_of_cons in Hin as [?|?].
      * right. simpl. by rewrite !lookup_insert_ne.
Qed.

(** Whether [dfs] returns does not depend on the start depth. *)
Lemma dfs_trace_any_depth fuel node (all : list (Instance A)) d d' :
  is_Some (dfs_trace fuel node all d) → is_Some (dfs_trace fuel node all d').
Proof.
  intros Hd. assert (is_Some (dfs_trace fuel node all 0)) as H0.
  { apply (fmap_is_Some (deepen d)). rewrite <- dfs_trace_deepen. exact Hd. }
  change d' with (0 + d'). rewrite dfs_trace_deepen. by apply fmap_is_Some.
Qed.

(** X8.  [dfs] started at an object whose chain of parents among the
    listed objects ends at a parentless one returns for every start depth,
    once the call nesting allowed is the number of listed objects less the
    length of that chain; and the start depth only offsets the annotation:
    the same objects come back in the same order, each depth raised by the
    offset.  The list starts with the start node, and no object outside
    the list has its attribute touched. *)
Theorem dfs_depth_offset fuel node (all : list (Instance A)) n r d k h :
  NoDup (id <$> (row <$> all)) → node ∈ all →
  ancestor (row <$> all) n (row node) = Some r → parent r = None →
  length all ≤ fuel + n →
  ∃ out h1 h2,
    dfs fuel node all d h = Some (out, h1) ∧
    dfs fuel node all (d + k) h = Some (out, h2) ∧
    (∃ rest, out = node :: rest) ∧
    (∀ x, x ∈ out → h2 !! addr x = (λ n, n + k) <$> h1 !! addr x) ∧
    (∀ a, a ∉ addr <$> out → h1 !! a = h !! a ∧ h2 !! a = h !! a).
Proof.
  intros Hids Hnode Hn Hr Hfuel.
  assert (is_Some (dfs_trace fuel node all d)) as [tr Htr].
  { apply (dfs_trace_any_depth fuel node all n).
    by apply (dfs_trace_terminates all Hids fuel node n r). }
  rewrite !dfs_dfs_trace, dfs_trace_deepen, Htr. simpl.
  exists tr.*1, (writes tr h), (writes (deepen k tr) h).
  unfold result_of. simpl. rewrite deepen_objects.
  split; [done|]. split; [done|]. split; [|split].
  - apply dfs_trace_head in Htr as (rest & -> & _). by eexists.
  - intros x Hx. apply writes_deepen. left. by apply list_elem_of_fmap_2.
  - intros a Ha. split; apply writes_lookup_other; [done|].
    by rewrite deepen_objects.
Qed.

End DfsOffset.

(** * More about the write path *)

Section MoreWriteFacts.
Context {A : Type}.
Implicit Types (self c : Comment A) (w : World A) (t : list (Comment A)).

Lemma save_table self w :
  table (save self w).2 = Model.write_row (save self w).1 (table w).
Proof.
  unfold save. destruct (markup_falsy (markup self)); simpl;
    destruct (is_approved self) eqn:Ea, (date_approved self) eqn:Ed; simpl; done.
Qed.

(** [save] writes to three attributes of the object and to no other. *)
Lemma save_keeps self w :
  content_type (save self w).1 = content_type self ∧
  object_id (save self w).1 = object_id self ∧
  parent (save self w).1 = parent self ∧
  author (save self w).1 = author self ∧
  date_submitted (save self w).1 = date_submitted self ∧
  comment (save self w).1 = comment self ∧
  is_public (save self w).1 = is_public self ∧
  is_approved (save self w).1 = is_approved self ∧
  ip_address (save self w).1 = ip_address self.
Proof.
  unfold save. destruct (markup_falsy (markup self)); simpl;
    destruct (is_approved self) eqn:Ea, (date_approved self) eqn:Ed; simpl;
    by rewrite ?Ea.
Qed.

Lemma save_date_modified self w : date_modified (save self w).1 = clock w 0.
Proof.
  unfold save. destruct (markup_falsy (markup self)); simpl;
    destruct (is_approved self) eqn:Ea, (date_approved self) eqn:Ed; simpl; done.
Qed.

Lemma save_settled self w : settled (save self w).1.
Proof.
  split.
  - rewrite save_markup. by destruct (markup_falsy (markup self)) eqn:E.
  - destruct (save_keeps self w) as (_ & _ & _ & _ & _ & _ & _ & -> & _).
    intros Happ. rewrite save_date_approved, Happ.
    by destruct (date_approved self).
Qed.

Lemma write_row_Forall (P : Comment A → Prop) c t :
  Forall P t → P c → Forall P (Model.write_row c t).
Proof.
  intros Ht Hc. induction Ht as [|x t Hx Ht IH]; simpl.
  - by constructor.
  - destruct (id x =? id c)%Z; by constructor.
Qed.

Lemma write_row_ids c t :
  id <$> Model.write_row c t
  = if bool_decide (id c ∈ id <$> t) then id <$> t else (id <$> t) ++ [id c].
Proof.
  induction t as [|x t IH].
  - case_bool_decide as E; [by apply elem_of_nil in E | done].
  - cbn [Model.write_row]. rewrite (fmap_cons id x t).
    destruct (Z.eqb_spec (id x) (id c)) as [Heq|Hne].
    + rewrite bool_decide_true by (rewrite Heq; left).
      by rewrite fmap_cons, Heq.
    + rewrite fmap_cons, IH. case_bool_decide as E.
      * by rewrite bool_decide_true by by right.
      * rewrite bool_decide_false; [done|].
        intros [?|?]%elem_of_cons; [congruence|done].
Qed.

Lemma write_row_fresh c t :
  id c ∉ id <$> t → Model.write_row c t = t ++ [c].
Proof.
  induction t as [|x t IH]; intros Hfresh; simpl; [done|].
  rewrite fmap_cons in Hfresh. apply not_elem_of_cons in Hfresh as [Hne Hfresh].
  destruct (Z.eqb_spec (id x) (id c)); [congruence|]. by rewrite IH.
Qed.

Lemma write_row_other c t k :
  k ≠ id c →
  snd <$> list_find (λ x, id x = k) (Model.write_row c t)
  = snd <$> list_find (λ x, id x = k) t.
Proof.
  intros Hne. induction t as [|x t IH]; simpl.
  - by rewrite decide_False by done.
  - destruct (Z.eqb_spec (id x) (id c)) as [Heq|Hne']; simpl.
    + rewrite !decide_False by congruence. done.
    + destruct (decide (id x = k)); [done|].
      destruct (list_find _ (Model.write_row c t)) as [[i y]|],
               (list_find _ t) as [[j z]|]; simpl in *; congruence.
Qed.

Lemma next_id_above t c : c ∈ t → (id c < Model.next_id t)%Z.
Proof.
  unfold Model.next_id. induction t as [|x t IH]; [by intros ?%elem_of_nil|].
  simpl. intros [->|Hc]%elem_of_cons; [lia|]. apply IH in Hc. lia.
Qed.

Lemma next_id_fresh t : Model.next_id t ∉ id <$> t.
Proof.
  intros (c & Heq & Hc)%list_elem_of_fmap. apply next_id_above in Hc. lia.
Qed.

(** A write keeps the primary keys of the table distinct and leaves
    every row under another key as it was; the table grows by one row
    exactly when the object's key was not in it. *)
Theorem save_keeps_table_keyed self w :
  NoDup (id <$> table w) →
  NoDup (id <$> table (save self w).2) ∧
  (∀ k, k ≠ id self → stored k (save self w).2 = stored k w) ∧
  length (table (save self w).2)
  = if bool_decide (id self ∈ id <$> table w) then length (table w)
    else S (length (table w)).
Proof.
  intros Hnd.
  assert (id <$> table (save self w).2
          = if bool_decide (id self ∈ id <$> table w) then id <$> table w
            else (id <$> table w) ++ [id self]) as Hids.
  { by rewrite save_table, write_row_ids, save_id. }
  split; [|split].
  - rewrite Hids. destruct (bool_decide _) eqn:E; [done|].
    apply bool_decide_eq_false in E. apply NoDup_app. split; [done|].
    split; [|apply NoDup_singleton].
    intros x Hx ->%list_elem_of_singleton. done.
  - intros k Hk. unfold stored. rewrite save_table.
    apply write_row_other. by rewrite save_id.
  - rewrite <- (length_fmap id), Hids.
    destruct (bool_decide _); rewrite ?length_app, !length_fmap; simpl; lia.
Qed.

(** X9.  Whatever a client does to a comment object, as long as rows
    reach the table through [save], every row of the table has its markup
    set and, if it is approved, an approval date. *)
Theorem writes_leave_rows_settled (acts : list Action) self w :
  Forall settled (table w) →
  Forall settled (table (run acts (self, w)).2).
Proof.
  intros Hall. induction acts as [|a acts IH] using rev_ind; [done|].
  rewrite run_snoc. destruct a; simpl; try done.
  rewrite save_table. apply write_row_Forall; [done|]. apply save_settled.
Qed.

(** X10.  Saving twice in a row: the second save changes nothing but the
    modification date, which takes the clock reading of that save. *)
Theorem save_twice self w :
  (save (save self w).1 (save self w).2).1
  = set_date_modified (clock (save self w).2 0) (save self w).1.
Proof.
  destruct (save_settled self w) as [Hmarkup Hstamp].
  destruct (save self w) as [s1 w1]; simpl in *.
  unfold save. rewrite Hmarkup. simpl.
  destruct (is_approved s1) eqn:Happ; simpl.
  - destruct Hstamp as [d Hd]; [done|]. by rewrite Hd.
  - by rewrite andb_false_r.
Qed.

End MoreWriteFacts.

(** * More about the accessors *)

Section MoreAccessorFacts.
Context {A : Type} `{AuthorColumns A}.
Implicit Types (t : list (Comment A)) (c obj : Comment A) (w : World A)
  (o : ContentObject) (kwargs : Kwargs A).

Lemma matches_owner o kwargs c :
  matches (_generate_object_kwarg_dict o kwargs) c = true →
  get_content_object c = o ∧ ORM.for_object o c = true.
Proof.
  unfold matches, get_content_object, ORM.for_object. simpl.
  rewrite !andb_true_iff, !bool_decide_eq_true, !Z.eqb_eq.
  destruct o as [ct pk]. simpl. intros Hm.
  assert (ct = content_type c ∧ pk = object_id c) as [-> ->] by tauto. done.
Qed.

Lemma get_query_set_elem m t c :
  c ∈ get_query_set m t ↔
  c ∈ t ∧ (m = PublicThreadedCommentManager → visible c = true).
Proof.
  unfold get_query_set, ORM.all. destruct m.
  - split; [intros Hc; split; [done|discriminate] | tauto].
  - rewrite list_elem_of_filter. tauto.
Qed.

Lemma get_query_set_sublist m t : get_query_set m t `sublist_of` t.
Proof.
  unfold get_query_set, ORM.all. destruct m; [done|apply sublist_filter].
Qed.

Lemma get_query_set_app m t t' :
  get_query_set m (t ++ t') = get_query_set m t ++ get_query_set m t'.
Proof.
  unfold get_query_set, ORM.all. destruct m; [done|apply filter_app].
Qed.

Lemma get_Found (selected : list (Comment A)) c :
  Model.get selected = Found c ↔ selected = [c].
Proof. destruct selected as [|x [|y l]]; simpl; split; congruence. Qed.

(** X11.  A per-object lookup cannot leave its content object: owner keys
    passed by the caller are overridden, so they change neither what
    [get_for_object] returns nor what [create_for_object] creates, and a
    comment that is returned is a row of the table attached to the content
    object (and visible, through the public manager). *)
Theorem get_for_object_stays_on_object m t o kwargs (ct oid : option Z) :
  get_for_object m t o (with_owner_keys ct oid kwargs)
  = get_for_object m t o kwargs ∧
  (∀ w, create_for_object o (with_owner_keys ct oid kwargs) w
        = create_for_object o kwargs w) ∧
  (∀ c, get_for_object m t o kwargs = Found c →
        c ∈ t ∧ get_content_object c = o ∧
        (m = PublicThreadedCommentManager → visible c = true)).
Proof.
  split; [done|]. split; [done|].
  intros c Hfound. unfold get_for_object in Hfound.
  apply get_Found in Hfound.
  assert (c ∈ filter (λ c, matches (_generate_object_kwarg_dict o kwargs) c = true)
                (get_query_set m t)) as Hc by (rewrite Hfound; left).
  apply list_elem_of_filter in Hc as [Hm Hc].
  apply get_query_set_elem in Hc as [Hc Hvis].
  by destruct (matches_owner _ _ _ Hm).
Qed.

(** X12.  With distinct primary keys, a lookup whose keywords name a
    primary key never fails with [MultipleObjectsReturned], and a comment
    it returns has that key. *)
Theorem get_for_object_by_key m t o kwargs (k : Z) :
  NoDup (id <$> t) → kw_id kwargs = Some k →
  get_for_object m t o kwargs ≠ MultipleObjectsReturned ∧
  (∀ c, get_for_object m t o kwargs = Found c → id c = k).
Proof.
  intros Hnd Hk. unfold get_for_object.
  set (selected := filter _ (get_query_set m t)).
  assert (∀ c, c ∈ selected → id c = k) as Hkey.
  { intros c [Hm _]%list_elem_of_filter. unfold matches in Hm. simpl in Hm.
    rewrite Hk in Hm. rewrite !andb_true_iff in Hm. simpl in Hm.
    rewrite bool_decide_eq_true in Hm. symmetry. tauto. }
  assert (NoDup (id <$> selected)) as Hsel.
  { eapply sublist_NoDup; [exact Hnd|]. apply fmap_sublist.
    etransitivity; [apply sublist_filter | apply get_query_set_sublist]. }
  split.
  - destruct selected as [|x [|y l]]; simpl; try done.
    exfalso. rewrite !fmap_cons in Hsel. apply NoDup_cons in Hsel as [Hx _].
    apply Hx. rewrite (Hkey x), <- (Hkey y); [left|right; left|left].
  - intros c ->%get_Found. apply Hkey. left.
Qed.

Lemma agrees_default {B : Type} `{EqDecision B} (k : option B) (d : B) :
  agrees k (default d k) = true.
Proof. destruct k; simpl; [by apply bool_decide_eq_true|done]. Qed.

Lemma agrees_refl {B : Type} `{EqDecision B} (x : B) : agrees (Some x) x = true.
Proof. by apply bool_decide_eq_true. Qed.

(** What [create] stores: a row under the chosen key that carries the
    keywords' values wherever [save] does not rewrite them. *)
Lemma create_spec kwargs w obj w' :
  create kwargs w = Some (obj, w') →
  id obj = default (Model.next_id (table w)) (kw_id kwargs) ∧
  table w' = Model.write_row obj (table w) ∧
  (∀ ct, kw_content_type kwargs = Some ct → content_type obj = ct) ∧
  (∀ oid, kw_object_id kwargs = Some oid → object_id obj = oid) ∧
  parent obj = default None (kw_parent kwargs) ∧
  (survive_save kwargs → matches kwargs obj = true).
Proof.
  unfold create, construct.
  destruct (kw_content_type kwargs) as [ct|] eqn:Ect; [|done].
  destruct (kw_object_id kwargs) as [oid|] eqn:Eoid; [|done].
  destruct (match kw_author kwargs with
            | Some a => Some a
            | None => author_default
            end) as [a|] eqn:Ea; [|done].
  destruct (match kw_date_submitted kwargs with
            | Some d => (d, w)
            | None => Model.datetime_now w
            end) as [submitted w1] eqn:Es.
  destruct (match kw_date_modified kwargs with
            | Some d => (d, w1)
            | None => Model.datetime_now w1
            end) as [modified w2] eqn:Em.
  assert (table w2 = table w) as Htable.
  { assert (table w1 = table w) as <-.
    { destruct (kw_date_submitted kwargs); injection Es as _ <-; done. }
    destruct (kw_date_modified kwargs); injection Em as _ <-; done. }
  set (c := mkComment _ _ _ _ _ _ _ _ _ _ _ _ _).
  intros Hsave. assert (obj = (save c w2).1 ∧ w' = (save c w2).2) as [-> ->].
  { destruct (save c w2). by simplify_eq. }
  destruct (save_keeps c w2) as (Hct & Hoid & Hpar & Haut & Hsub & Hcom & Hpub & Happ & Hip).
  split; [by rewrite save_id|]. split; [by rewrite save_table, Htable|].
  split; [intros ? [= <-]; by rewrite Hct|].
  split; [intros ? [= <-]; by rewrite Hoid|].
  split; [by rewrite Hpar|].
  intros (Hmk & Hdm & Hda). unfold matches.
  rewrite save_id, Hct, Hoid, Hpar, Haut, Hsub, Hcom, Hpub, Happ, Hip,
    save_markup, save_date_approved, Hdm, Ect, Eoid.
  subst c. cbn [id content_type object_id parent author date_submitted
                date_approved comment markup is_public is_approved ip_address].
  rewrite !agrees_default, !agrees_refl. simpl.
  rewrite !andb_true_r, !andb_true_iff. repeat split.
  - destruct (kw_author kwargs) as [a'|]; [|done].
    injection Ea as ->. apply agrees_refl.
  - destruct (kw_date_submitted kwargs) as [d|]; [|done].
    injection Es as -> _. apply agrees_refl.
  - destruct (kw_date_approved kwargs) as [[d|]|]; [apply agrees_refl| |done].
    simpl. destruct (kw_is_approved kwargs) as [[|]|]; simpl;
      [by destruct Hda|first [done|apply agrees_refl]..].
  - destruct (kw_markup kwargs) as [mk|]; simpl; [|done].
    rewrite (Hmk mk) by done. apply agrees_refl.
Qed.

(** X13.  Creating a comment for a content object without naming a key
    appends one row under a fresh key, attached to that object; the keys of
    the table stay distinct; and a lookup by the new key returns the new
    comment, through the public manager only if it is visible. *)
Theorem create_then_get o kwargs w obj w' :
  NoDup (id <$> table w) → kw_id kwargs = None →
  create_for_object o kwargs w = Some (obj, w') →
  table w' = table w ++ [obj] ∧ NoDup (id <$> table w') ∧
  get_content_object obj = o ∧
  get_for_object ThreadedCommentManager (table w') o (by_id (id obj)) = Found obj ∧
  get_for_object PublicThreadedCommentManager (table w') o (by_id (id obj))
  = if visible obj then Found obj else DoesNotExist.
Proof.
  intros Hnd Hkey Hcreate. unfold create_for_object in Hcreate.
  destruct (create_spec _ _ _ _ Hcreate) as (Hid & Htable & Hct & Hoid & _ & _).
  simpl in Hid, Hct, Hoid. rewrite Hkey in Hid. simpl in Hid.
  specialize (Hct _ eq_refl). specialize (Hoid _ eq_refl).
  assert (id obj ∉ id <$> table w) as Hfresh.
  { rewrite Hid. apply next_id_fresh. }
  rewrite write_row_fresh in Htable by done.
  assert (matches (_generate_object_kwarg_dict o (by_id (id obj))) obj = true)
    as Hmatch.
  { unfold matches. simpl. rewrite Hct, Hoid.
    by rewrite !bool_decide_true by done. }
  assert (∀ m, filter (λ c, matches (_generate_object_kwarg_dict o (by_id (id obj))) c
                            = true) (get_query_set m (table w)) = []) as Hold.
  { intros m. apply filter_none. intros c Hc Hm.
    apply get_query_set_elem in Hc as [Hc _]. apply Hfresh.
    unfold matches in Hm. simpl in Hm. rewrite !andb_true_iff in Hm.
    assert (agrees (Some (id obj)) (id c) = true) as Hk by tauto.
    apply bool_decide_eq_true in Hk. rewrite Hk. by apply list_elem_of_fmap_2. }
  split; [done|]. split; [|split; [|split]].
  - rewrite Htable, fmap_app. apply NoDup_app. split; [done|].
    split; [|apply NoDup_singleton].
    intros x Hx ->%list_elem_of_singleton. done.
  - unfold get_content_object. rewrite Hct, Hoid. by destruct o.
  - unfold get_for_object. rewrite Htable, get_query_set_app, filter_app, Hold.
    change (get_query_set ThreadedCommentManager [obj]) with [obj].
    rewrite app_nil_l, filter_cons, decide_True by done. done.
  - unfold get_for_object. rewrite Htable, get_query_set_app, filter_app, Hold.
    rewrite app_nil_l. unfold get_query_set, ORM.all. rewrite filter_cons.
    destruct (visible obj) eqn:Evis.
    + rewrite decide_True by done. rewrite filter_cons, decide_True by done. done.
    + rewrite decide_False by congruence. done.
Qed.

(** X14.  Get-or-create is repeatable when the keywords survive [save]: a
    call that created a comment under a fresh key is followed, in the world
    it left, by a call with the same keywords that returns that very
    comment, creates nothing and changes nothing.  (Through the public
    manager the comment must be visible to be found again.) *)
Theorem get_or_create_twice m o kwargs w obj w' :
  NoDup (id <$> table w) → kw_id kwargs = None → survive_save kwargs →
  (m = ThreadedCommentManager ∨ visible obj = true) →
  get_or_create_for_object m o kwargs w = Got obj true w' →
  get_or_create_for_object m o kwargs w' = Got obj false w'.
Proof.
  intros Hnd Hkey Hsurvive Hvis.
  unfold get_or_create_for_object, get_or_create.
  set (kw := _generate_object_kwarg_dict o kwargs).
  destruct (Model.get (filter _ (get_query_set m (table w)))) eqn:Hget; [done| |done].
  destruct (create kw w) as [[obj0 w0]|] eqn:Hcreate; [|done].
  intros [= -> ->].
  destruct (create_spec _ _ _ _ Hcreate) as (Hid & Htable & _ & _ & _ & Hmatch).
  assert (survive_save kw) as Hsurvive' by done.
  specialize (Hmatch Hsurvive').
  simpl in Hid. rewrite Hkey in Hid. simpl in Hid.
  rewrite write_row_fresh in Htable by (rewrite Hid; apply next_id_fresh).
  assert (filter (λ c, matches kw c = true) (get_query_set m (table w)) = [])
    as Hold.
  { destruct (filter _ (get_query_set m (table w))) as [|x [|y l]]; done. }
  assert (get_query_set m [obj] = [obj]) as Hnew.
  { unfold get_query_set, ORM.all. destruct Hvis as [->|Hv]; [done|].
    destruct m; [done|]. by rewrite filter_cons, decide_True. }
  rewrite Htable, get_query_set_app, filter_app, Hold, Hnew, app_nil_l.
  by rewrite filter_cons, decide_True.
Qed.

End MoreAccessorFacts.

(** * The display and snapshot methods *)

Section DisplayFacts.
Context {A : Type}.

Lemma length_substring_0 (n : nat) (s : string) :
  String.length (String.substring 0 n s) = n `min` String.length s.
Proof.
  revert n. induction s as [|a s IH]; intros [|n]; simpl; try done.
  by rewrite IH.
Qed.

Lemma substring_0_all (n : nat) (s : string) :
  String.length s ≤ n → String.substring 0 n s = s.
Proof.
  revert n. induction s as [|a s IH]; intros [|n]; simpl; try done; [lia|].
  intros Hle. rewrite IH; [done|lia].
Qed.

Lemma length_append (s1 s2 : string) :
  String.length (String.append s1 s2) = String.length s1 + String.length s2.
Proof. induction s1 as [|a s1 IH]; simpl; [done|]. by rewrite IH. Qed.

Lemma substring_0_append (s1 s2 : string) :
  String.substring 0 (String.length s1) (String.append s1 s2) = s1.
Proof.
  induction s1 as [|a s1 IH]; simpl; [by destruct s2|]. by rewrite IH.
Qed.

(** X15.  The display string of a comment is the comment itself when it has
    at most 50 characters; otherwise it is 53 characters long and ends in
    three dots.  In either case it never exceeds 53 characters and agrees
    with the comment on the first 50. *)
Theorem unicode_truncates (self : Comment A) :
  (String.length (comment self) ≤ 50 → __unicode__ self = comment self) ∧
  (50 < String.length (comment self) →
     String.length (__unicode__ self) = 53 ∧
     String.substring 50 3 (__unicode__ self) = "..."%string) ∧
  String.length (__unicode__ self) ≤ 53 ∧
  String.substring 0 50 (__unicode__ self) = String.substring 0 50 (comment self).
Proof.
  unfold __unicode__.
  assert (50 < String.length (comment self) →
          String.length (String.substring 0 50 (comment self)) = 50) as Hcut.
  { intros Hlong. rewrite length_substring_0. lia. }
  destruct (Nat.ltb_spec 50 (String.length (comment self))) as [Hlong|Hshort].
  - specialize (Hcut Hlong).
    assert (String.length
              (String.append (String.substring 0 50 (comment self)) "...") = 53)
      as Hlen.
    { rewrite length_append, Hcut. done. }
    split; [lia|]. split; [|split; [lia|]].
    + intros _. split; [done|].
      assert (∀ s, String.length s = 50 →
                   String.substring 50 3 (String.append s "...") = "..."%string)
        as Htail.
      { intros s. generalize 50. clear. induction s as [|a s IH]; intros [|n];
          simpl; try done. intros [= Hn]. by apply IH. }
      by apply Htail.
    + rewrite <- Hcut at 1. apply substring_0_append.
  - split; [intros _; by apply substring_0_all|]. split; [lia|].
    rewrite substring_0_all by done. split; [lia|]. by rewrite substring_0_all.
Qed.

End DisplayFacts.

Section SnapshotFacts.

Lemma markup_choice_name_cases (m : option Z) :
  let name := markup_choice_name m MARKUP_CHOICES "plaintext" in
  (m = Some MARKDOWN ∧ name = "markdown"%string) ∨
  (m = Some TEXTILE ∧ name = "textile"%string) ∨
  (m = Some REST ∧ name = "restructuredtext"%string) ∨
  (m ≠ Some MARKDOWN ∧ m ≠ Some TEXTILE ∧ m ≠ Some REST ∧
   name = "plaintext"%string).
Proof.
  unfold MARKUP_CHOICES. cbn [markup_choice_name fst snd].
  repeat case_bool_decide; subst; auto 10.
Qed.

Lemma markup_choice_name_save {A} (self : Comment A) (w : World A) :
  markup_choice_name (markup (save self w).1) MARKUP_CHOICES "plaintext"
  = markup_choice_name (markup self) MARKUP_CHOICES "plaintext".
Proof.
  rewrite save_markup. unfold markup_falsy.
  destruct (markup self) as [z|]; [|done].
  destruct (Z.eqb_spec z 0) as [->|Hz]; done.
Qed.

(** X16.  The snapshot dictionary names the markup by one of the four
    choices, and by "plaintext" exactly when the markup number is none of
    markdown, textile and restructuredtext (unset and unknown numbers
    included).  Without dates it is the snapshot with dates minus the
    three date keys. *)
Theorem snapshot_markup_and_dates (self : ThreadedComment) :
  (∃ name, ThreadedComment_get_base_data self false !! "markup"%string
           = Some (VStr name) ∧
     ((markup self = Some MARKDOWN ∧ name = "markdown"%string) ∨
      (markup self = Some TEXTILE ∧ name = "textile"%string) ∨
      (markup self = Some REST ∧ name = "restructuredtext"%string) ∨
      (markup self ≠ Some MARKDOWN ∧ markup self ≠ Some TEXTILE ∧
       markup self ≠ Some REST ∧ name = "plaintext"%string))) ∧
  ThreadedComment_get_base_data self false
  = delete "date_submitted"%string
      (delete "date_modified"%string
         (delete "date_approved"%string
            (ThreadedComment_get_base_data self true))) ∧
  ThreadedComment_get_base_data self true !! "date_submitted"%string
  = Some (VDate (date_submitted self)) ∧
  ThreadedComment_get_base_data self true !! "date_modified"%string
  = Some (VDate (date_modified self)) ∧
  ThreadedComment_get_base_data self true !! "date_approved"%string
  = Some (optional VDate (date_approved self)).
Proof.
  split; [|split; [|split; [|split]]].
  - eexists. split; [by unfold ThreadedComment_get_base_data|].
    apply markup_choice_name_cases.
  - unfold ThreadedComment_get_base_data, with_dates. apply map_eq. intros k.
    destruct (decide (k = "date_submitted"%string)) as [->|H1];
      [by rewrite lookup_delete_eq|].
    rewrite lookup_delete_ne by done.
    destruct (decide (k = "date_modified"%string)) as [->|H2];
      [by rewrite lookup_delete_eq|].
    rewrite lookup_delete_ne by done.
    destruct (decide (k = "date_approved"%string)) as [->|H3];
      [by rewrite lookup_delete_eq|].
    rewrite lookup_delete_ne by done.
    rewrite (lookup_insert_ne _ "date_approved"%string k) by done.
    rewrite (lookup_insert_ne _ "date_modified"%string k) by done.
    by rewrite (lookup_insert_ne _ "date_submitted"%string k) by done.
  - done.
  - done.
  - done.
Qed.

(** X17.  The snapshot without dates does not notice a [save]: it is the
    same for the object before and after the call, in both model classes
    (the markup that [save] fills in is the one the snapshot already
    reported). *)
Theorem snapshot_unchanged_by_save :
  (∀ (self : ThreadedComment) w,
     ThreadedComment_get_base_data (save self w).1 false
     = ThreadedComment_get_base_data self false) ∧
  (∀ (self : FreeThreadedComment) w,
     FreeThreadedComment_get_base_data (save self w).1 false
     = FreeThreadedComment_get_base_data self false).
Proof.
  split; intros self w.
  - unfold ThreadedComment_get_base_data, with_dates, get_content_object.
    rewrite markup_choice_name_save.
    destruct (save_keeps self w) as (-> & -> & -> & -> & _ & -> & -> & -> & ->).
    done.
  - unfold FreeThreadedComment_get_base_data, with_dates, get_content_object.
    rewrite markup_choice_name_save.
    destruct (save_keeps self w) as (-> & -> & -> & -> & _ & -> & -> & -> & ->).
    done.
Qed.

End SnapshotFacts.


(** * Creating a reply and assembling the tree again *)

Section Replies.
Context {A : Type} `{AuthorColumns A}.
Implicit Types (t rows : list (Comment A)) (c obj : Comment A) (o : ContentObject).

Lemma parent_row_app_l rows extra c q :
  parent_row rows c = Some q → parent_row (rows ++ extra) c = Some q.
Proof.
  unfold parent_row. destruct (parent c) as [p|]; [|done].
  destruct (list_find _ rows) as [[i x]|] eqn:E; [|done].
  simpl. intros [= <-]. by rewrite (list_find_app_l _ _ _ i x).
Qed.

Lemma ancestor_app_l rows extra n c q :
  ancestor rows n c = Some q → ancestor (rows ++ extra) n c = Some q.
Proof.
  revert c. induction n as [|n IH]; intros c; simpl; [done|].
  destruct (parent_row rows c) as [x|] eqn:E; [|done].
  rewrite (parent_row_app_l _ _ _ x E). apply IH.
Qed.

Lemma rows_for_app m t t' o :
  rows_for m (t ++ t') o = rows_for m t o ++ rows_for m t' o.
Proof. unfold rows_for. by rewrite get_query_set_app, filter_app. Qed.

(** What a successful run shows, in terms of the fetched rows. *)
Lemma tree_view_members fuel b rows (tr : Trace A) c d :
  NoDup (id <$> rows) →
  tree_trace fuel (ORM.instantiate b rows) = Some tr →
  (c, Some d) ∈ (λ p : Instance A * nat, (row p.1, Some p.2)) <$> tr ↔
  c ∈ rows ∧ ∃ r, ancestor rows d c = Some r ∧ parent r = None.
Proof.
  intros Hnd Htr. set (all := ORM.instantiate b rows) in *.
  assert (row <$> all = rows) as Hrows by apply row_instantiate.
  assert (NoDup (id <$> (row <$> all))) as Hids by by rewrite Hrows.
  split.
  - intros ([x k] & [= -> ->] & Hin)%list_elem_of_fmap. simpl.
    destruct (tree_trace_rooted all Hids fuel tr x k Htr Hin)
      as (Hx & root & _ & Hr & Hk).
    rewrite <- Hrows. split; [by apply list_elem_of_fmap_2 | eauto].
  - rewrite <- Hrows. intros [(x & -> & Hx)%list_elem_of_fmap (r & Hd & Hr)].
    apply list_elem_of_fmap. exists (x, d). split; [done|].
    by eapply tree_trace_complete.
Qed.


End Replies.


(** * The further properties at work on the sample data *)




Lemma get_tree_frame_witness :
  ∃ out w',
    get_tree 5 ThreadedCommentManager Scenario.thread Scenario.page
             (mkHeap 3 {[ 1 := 9 ]}) = Some (out, w') ∧
    next_addr w' = 3 + length (rows_for ThreadedCommentManager Scenario.thread
                                        Scenario.page) ∧
    (∀ x, x ∈ out → 3 ≤ addr x < next_addr w') ∧
    (∀ a, a < 3 → depths w' !! a = ({[ 1 := 9 ]} : DepthAttrs) !! a).
Proof.
  assert (∃ out w',
            get_tree 5 ThreadedCommentManager Scenario.thread Scenario.page
                     (mkHeap 3 {[ 1 := 9 ]}) = Some (out, w'))
    as (out & w' & Hrun) by (eexists _, _; vm_compute; reflexivity).
  exists out, w'. split; [exact Hrun|].
  exact (get_tree_frame 5 ThreadedCommentManager Scenario.thread Scenario.page
           (mkHeap 3 {[ 1 := 9 ]}) out w' Hrun).
Defined.




Lemma dfs_depth_offset_witness :
  ∃ out h1 h2,
    dfs 3 (mkInstance 1 Scenario.cB) Gallery.fetched 0 ∅ = Some (out, h1) ∧
    dfs 3 (mkInstance 1 Scenario.cB) Gallery.fetched (0 + 4) ∅ = Some (out, h2) ∧
    (∃ rest, out = mkInstance 1 Scenario.cB :: rest) ∧
    (∀ x, x ∈ out → h2 !! addr x = (λ n, n + 4) <$> h1 !! addr x) ∧
    (∀ a, a ∉ addr <$> out →
          h1 !! a = (∅ : DepthAttrs) !! a ∧ h2 !! a = (∅ : DepthAttrs) !! a).
Proof.
  apply (dfs_depth_offset 3 (mkInstance 1 Scenario.cB) Gallery.fetched
           1 Scenario.cA 0 4 ∅).
  - apply (bool_decide_unpack _). vm_compute. reflexivity.
  - unfold Gallery.fetched. simpl. right. left.
  - reflexivity.
  - reflexivity.
  - vm_compute. lia.
Defined.

Lemma save_keeps_table_keyed_witness :
  NoDup (id <$> table (save Scenario.approved_draft Scenario.world0).2) ∧
  (∀ k, k ≠ id Scenario.approved_draft →
        stored k (save Scenario.approved_draft Scenario.world0).2
        = stored k Scenario.world0) ∧
  length (table (save Scenario.approved_draft Scenario.world0).2)
  = if bool_decide (id Scenario.approved_draft ∈ id <$> table Scenario.world0)
    then length (table Scenario.world0)
    else S (length (table Scenario.world0)).
Proof.
  apply (save_keeps_table_keyed Scenario.approved_draft Scenario.world0).
  apply (bool_decide_unpack _). vm_compute. reflexivity.
Defined.

Lemma writes_leave_rows_settled_witness :
  Forall settled
    (table (run [Assign_markup None; Save; Assign_is_approved true; Save]
                (Scenario.cHidden, Gallery.world1)).2).
Proof.
  apply (writes_leave_rows_settled
           [Assign_markup None; Save; Assign_is_approved true; Save]
           Scenario.cHidden Gallery.world1).
  unfold Gallery.world1, Scenario.thread. simpl.
  repeat (constructor; [split; [reflexivity|discriminate]|]). constructor.
Defined.

Lemma get_for_object_stays_on_object_witness :
  Scenario.cO ∈ Scenario.damaged ∧
  get_content_object Scenario.cO = Scenario.other_page ∧
  (PublicThreadedCommentManager = PublicThreadedCommentManager →
   visible Scenario.cO = true).
Proof.
  apply (proj2 (proj2 (get_for_object_stays_on_object
                         PublicThreadedCommentManager Scenario.damaged
                         Scenario.other_page Scenario.no_kwargs
                         (Some 7%Z) (Some 42%Z)))).
  vm_compute. reflexivity.
Defined.

Lemma get_for_object_by_key_witness :
  get_for_object ThreadedCommentManager Scenario.damaged Scenario.page
                 (by_id 3%Z) ≠ MultipleObjectsReturned ∧
  (∀ c, get_for_object ThreadedCommentManager Scenario.damaged Scenario.page
                       (by_id 3%Z) = Found c → id c = 3%Z).
Proof.
  apply (get_for_object_by_key ThreadedCommentManager Scenario.damaged
           Scenario.page (by_id 3%Z) 3%Z).
  - apply (bool_decide_unpack _). vm_compute. reflexivity.
  - reflexivity.
Defined.

Lemma create_then_get_witness :
  ∃ obj w',
    create_for_object Scenario.page Scenario.by_author Scenario.world0
      = Some (obj, w') ∧
    table w' = table Scenario.world0 ++ [obj] ∧ NoDup (id <$> table w') ∧
    get_content_object obj = Scenario.page ∧
    get_for_object ThreadedCommentManager (table w') Scenario.page
                   (by_id (id obj)) = Found obj ∧
    get_for_object PublicThreadedCommentManager (table w') Scenario.page
                   (by_id (id obj))
    = if visible obj then Found obj else DoesNotExist.
Proof.
  assert (∃ obj w',
            create_for_object Scenario.page Scenario.by_author Scenario.world0
            = Some (obj, w'))
    as (obj & w' & Hrun) by (eexists _, _; vm_compute; reflexivity).
  exists obj, w'. split; [exact Hrun|].
  apply (create_then_get Scenario.page Scenario.by_author Scenario.world0 obj w').
  - apply (bool_decide_unpack _). vm_compute. reflexivity.
  - reflexivity.
  - exact Hrun.
Defined.

Lemma get_or_create_twice_witness :
  ∃ obj w',
    get_or_create_for_object ThreadedCommentManager Scenario.page
      Scenario.by_author Scenario.world0 = Got obj true w' ∧
    get_or_create_for_object ThreadedCommentManager Scenario.page
      Scenario.by_author w' = Got obj false w'.
Proof.
  assert (∃ obj w',
            get_or_create_for_object ThreadedCommentManager Scenario.page
              Scenario.by_author Scenario.world0 = Got obj true w')
    as (obj & w' & Hrun) by (eexists _, _; vm_compute; reflexivity).
  exists obj, w'. split; [exact Hrun|].
  apply (get_or_create_twice ThreadedCommentManager Scenario.page
           Scenario.by_author Scenario.world0 obj w').
  - apply (bool_decide_unpack _). vm_compute. reflexivity.
  - reflexivity.
  - split; [|split]; [intros mk; discriminate | reflexivity | discriminate].
  - by left.
  - exact Hrun.
Defined.

Lemma unicode_truncates_witness :
  __unicode__ Scenario.cA = comment Scenario.cA ∧
  String.length (__unicode__ Gallery.wordy) = 53 ∧
  String.substring 50 3 (__unicode__ Gallery.wordy) = "..."%string.
Proof.
  split.
  - apply (proj1 (unicode_truncates Scenario.cA)). vm_compute. lia.
  - apply (proj1 (proj2 (unicode_truncates Gallery.wordy))). vm_compute. lia.
Defined.



(** Keywords that [save] rewrites are not found again: with the markup
    bound to [None], every call creates one more comment. *)
Example get_or_create_unmarked_repeats :
  ∃ obj1 w1 obj2 w2,
    get_or_create_for_object ThreadedCommentManager Scenario.page
      Gallery.unmarked Gallery.world1 = Got obj1 true w1 ∧
    get_or_create_for_object ThreadedCommentManager Scenario.page
      Gallery.unmarked w1 = Got obj2 true w2 ∧
    id obj1 ≠ id obj2 ∧ length (table w2) = S (S (length (table Gallery.world1))).
Proof.
  eexists _, _, _, _. split; [vm_compute; reflexivity|].
  split; [vm_compute; reflexivity|]. vm_compute. split; [discriminate|done].
Qed.
